(** * Record Store & Generator: a shallow embedding of the temp-inbox core

    The development follows the TypeScript sources
    - [utils.ts]  (random generator, strength evaluator, OTP extractor),
    - [db.ts]     (bounded record store, IndexedDB and in-memory fallback),
    - [App.tsx]   (message synthesizer [createMessageRecord]).

    JavaScript strings are sequences of UTF-16 code units; they are modelled
    as [list Z] whose elements are the code units.  [String.length] is the
    list length, regular expressions without the [u] flag work on code
    units, and iterating a string (as [new Set(password)] does) walks code
    points, pairing surrogates. *)

From stdpp Require Import base list sorting lexico gmap.
From Stdlib Require Import ZArith Lia Ascii String.

Local Open Scope Z_scope.

(* [length] is the length of lists throughout, not of Rocq strings. *)
Abbreviation length := Datatypes.length.

(** ** JavaScript strings *)

Abbreviation jsstring := (list Z).

(** A string literal of the source; every literal of the modelled code is
    ASCII, so one code unit per character. *)
Definition js (s : string) : jsstring :=
  map (fun a => Z.of_nat (nat_of_ascii a)) (list_ascii_of_string s).

Definition jsLength (s : jsstring) : Z := Z.of_nat (length s).

Definition inRange (lo hi c : Z) : bool := (lo <=? c) && (c <=? hi).

(** Character classes of the regular expressions of utils.ts. *)
Definition isUpper (c : Z) : bool := inRange 65 90 c.          (* [A-Z] *)
Definition isLower (c : Z) : bool := inRange 97 122 c.         (* [a-z] *)
Definition isDigit (c : Z) : bool := inRange 48 57 c.          (* \d, [0-9] *)
Definition isAlnum (c : Z) : bool := isUpper c || isLower c || isDigit c.
Definition isWord (c : Z) : bool := isAlnum c || (c =? 95).    (* \w *)

(** [/[cls]/.test(s)]: some code unit of [s] lies in the class. *)
Definition testClass (cls : Z -> bool) (s : jsstring) : bool := existsb cls s.

(** ** utils.ts: constants *)

Definition LETTERS : jsstring := js "abcdefghijklmnopqrstuvwxyz".
Definition LETTERS_UPPER : jsstring := js "ABCDEFGHIJKLMNOPQRSTUVWXYZ".
Definition NUMBERS : jsstring := js "0123456789".
Definition SYMBOLS : jsstring := js "!@#$%^&*()-_=+[]{};:,.?".

Definition EMAIL_DOMAINS : list jsstring :=
  map js
    [ "guerrillamail.com"; "mailinator.com"; "tempmail.org";
      "10minutemail.com"; "maildrop.cc"; "inboxkitten.com";
      "dispostable.com"; "temp-mail.io"; "yopmail.com"; "mintemail.com";
      "fakeinbox.com"; "mailcatch.com" ]%string.

Definition phoneticPrefixes : list jsstring :=
  map js
    [ "alpha"; "bravo"; "charlie"; "delta"; "echo"; "foxtrot"; "gamma";
      "helios"; "ion"; "juno"; "kilo"; "lima"; "nova"; "orion"; "pluto";
      "quantum" ]%string.

(** The text JavaScript appends when [undefined] is concatenated to a
    string. *)
Definition undefinedText : jsstring := js "undefined".

(** ** The random source

    [crypto.getRandomValues] is the only source of randomness.  A run of the
    program sees one infinite sequence of draws, [entropy]; the state that is
    threaded through the code is the number of draws consumed so far. *)

Definition Rand (A : Type) : Type := nat -> A * nat.

Definition ret {A} (a : A) : Rand A := fun n => (a, n).

Definition bind {A B} (m : Rand A) (k : A -> Rand B) : Rand B :=
  fun n => let (a, n') := m n in k a n'.

Notation "'draw' x <- m 'in' k" := (bind m (fun x => k))
  (at level 10, x name, m at level 100, k at level 200).

Section Generator.

Variable entropy : nat -> Z.

(** [const array = new Uint32Array(1); crypto.getRandomValues(array);
    array[0]]: a Uint32Array element holds its value modulo 2^32. *)
Definition getRandomUint32 : Rand Z :=
  fun n => (entropy n mod 2 ^ 32, S n).

(** [randomInt]: [min + (array[0] % range)]; [%] is the truncating
    remainder. *)
Definition randomInt (min max : Z) : Rand Z :=
  draw u <- getRandomUint32 in
  let range := max - min + 1 in
  ret (min + Z.rem u range).

(** [source[i]] followed by [+=]: one code unit, or the text of
    [undefined] when the index is out of range. *)
Definition charAt (source : jsstring) (i : Z) : jsstring :=
  match source !! Z.to_nat i with
  | Some c => [c]
  | None => undefinedText
  end.

Definition randomChar (source : jsstring) : Rand jsstring :=
  draw u <- getRandomUint32 in
  ret (charAt source (Z.rem u (jsLength source))).

(** [while (local.length < localLength) { ... local += randomChar(set) }].
    Every iteration appends at least one code unit, so [localLength]
    iterations are enough; [padLocal_spec] below shows that the loop
    condition is false when the fuel-bounded loop stops. *)
Fixpoint padLocal (fuel : nat) (localLength : Z) (local : jsstring)
  : Rand jsstring :=
  match fuel with
  | O => ret local
  | S fuel' =>
      if jsLength local <? localLength then
        draw b <- randomInt 0 1 in
        let set := if b =? 0 then LETTERS else NUMBERS in
        draw c <- randomChar set in
        padLocal fuel' localLength (local ++ c)
      else ret local
  end.

(** [generateRandomEmail].  Both array reads are in range (see
    [randomInt_index]), so the defaults below are never used. *)
Definition generateRandomEmail : Rand jsstring :=
  draw localLength <- randomInt 8 12 in
  draw i <- randomInt 0 (Z.of_nat (length phoneticPrefixes) - 1) in
  let local := default undefinedText (phoneticPrefixes !! Z.to_nat i) in
  draw local <- padLocal (Z.to_nat localLength) localLength local in
  draw j <- randomInt 0 (Z.of_nat (length EMAIL_DOMAINS) - 1) in
  let domain := default undefinedText (EMAIL_DOMAINS !! Z.to_nat j) in
  ret (local ++ js "@" ++ domain).

(** [passwordHasRequirements] *)
Definition passwordHasRequirements (password : jsstring) : bool :=
  let hasUpper := testClass isUpper password in
  let hasLower := testClass isLower password in
  let hasNumber := testClass isDigit password in
  let hasSymbol := testClass (fun c => negb (isAlnum c)) password in
  hasUpper && hasLower && hasNumber && hasSymbol.

(** [while (password.length < length) password += randomChar(allChars)];
    [fillPassword_length] shows that [length] iterations are enough. *)
Fixpoint fillPassword (fuel : nat) (len : Z) (password : jsstring)
  : Rand jsstring :=
  match fuel with
  | O => ret password
  | S fuel' =>
      if jsLength password <? len then
        draw c <- randomChar (LETTERS ++ LETTERS_UPPER ++ NUMBERS ++ SYMBOLS) in
        fillPassword fuel' len (password ++ c)
      else ret password
  end.

(** One pass through the body of [generateSecurePassword], up to the test
    of [passwordHasRequirements]. *)
Definition passwordAttempt : Rand jsstring :=
  draw len <- randomInt 12 16 in
  fillPassword (Z.to_nat len) len [].

(** [generateSecurePassword] calls itself when the candidate is rejected,
    without any bound of its own: every rejected candidate costs one more
    nested call.  [depth] is the number of nested calls that can be made, in
    an engine the number its call stack has room for; [None] means that all
    of them rejected their candidate, so that the function has not returned
    (the engine gives up with a RangeError there). *)
Fixpoint generateSecurePassword (depth : nat) : Rand (option jsstring) :=
  match depth with
  | O => ret None
  | S depth' =>
      draw password <- passwordAttempt in
      if negb (passwordHasRequirements password)
      then generateSecurePassword depth'
      else ret (Some password)
  end.

End Generator.

(** ** utils.ts: strength evaluator *)

Inductive StrengthLevel := weak | medium | strong.

Definition isHighSurrogate (c : Z) : bool := inRange 55296 56319 c.
Definition isLowSurrogate (c : Z) : bool := inRange 56320 57343 c.

(** The string iterator: the elements [new Set(password)] receives.  A high
    surrogate followed by a low surrogate is one element. *)
Fixpoint codePoints (s : jsstring) : list jsstring :=
  match s with
  | [] => []
  | c :: rest =>
      match rest with
      | d :: rest' =>
          if isHighSurrogate c && isLowSurrogate d
          then [c; d] :: codePoints rest'
          else [c] :: codePoints rest
      | [] => [[c]]
      end
  end.

Definition evaluateStrength (password : jsstring) : StrengthLevel :=
  let score := 0 in
  let uniqueChars :=
    Z.of_nat (size (list_to_set (codePoints password) : gset jsstring)) in
  let score := if jsLength password >=? 12 then score + 1 else score in
  let score := if jsLength password >=? 14 then score + 1 else score in
  let score := if testClass isUpper password then score + 1 else score in
  let score := if testClass isLower password then score + 1 else score in
  let score := if testClass isDigit password then score + 1 else score in
  let score :=
    if testClass (fun c => negb (isWord c)) password then score + 1 else score in
  let score :=
    if uniqueChars >=? jsLength password - 2 then score + 1 else score in
  if score <=? 3 then weak
  else if score <=? 5 then medium
  else strong.

(** ** utils.ts: OTP extractor

    [text.match(/\b\d{4}\b|\b\d{6}\b|\b\d{8}\b/)]: the matcher tries the
    positions of the text from left to right and, at each position, the
    three alternatives in the order they are written. *)

(** Whether the code unit next to a position is a word character; there is
    none at either end of the text. *)
Definition wordAt (c : option Z) : bool :=
  match c with
  | Some c => isWord c
  | None => false
  end.

(** [\b] between the units [before] and [after]. *)
Definition boundary (before after : option Z) : bool :=
  xorb (wordAt before) (wordAt after).

(** [\b\d{n}\b] at one position: [prev] is the code unit before the
    position and [rest] the text from the position on. *)
Definition matchBoundedDigits (n : nat) (prev : option Z) (rest : jsstring)
  : option jsstring :=
  let m := take n rest in
  if boundary prev (head rest)
     && Nat.eqb (length m) n
     && forallb isDigit m
     && boundary (last m) (head (drop n rest))
  then Some m
  else None.

Definition matchHere (prev : option Z) (rest : jsstring) : option jsstring :=
  match matchBoundedDigits 4 prev rest with
  | Some m => Some m
  | None =>
      match matchBoundedDigits 6 prev rest with
      | Some m => Some m
      | None => matchBoundedDigits 8 prev rest
      end
  end.

Fixpoint searchFrom (prev : option Z) (rest : jsstring) : option jsstring :=
  match matchHere prev rest with
  | Some m => Some m
  | None =>
      match rest with
      | [] => None
      | c :: rest' => searchFrom (Some c) rest'
      end
  end.

(** [match ? match[0] : null] *)
Definition extractOtp (text : jsstring) : option jsstring :=
  searchFrom None text.

(** ** types.ts: records *)

Module CredentialRecord.
Record t := {
  id : jsstring;
  email : jsstring;
  password : jsstring;
  strength : StrengthLevel;
  timestamp : Z
}.
End CredentialRecord.

Module MessageRecord.
Record t := {
  id : jsstring;
  sender : jsstring;
  subject : jsstring;
  body : jsstring;
  otp : option jsstring;      (* string | null *)
  timestamp : Z
}.
End MessageRecord.

(** ** App.tsx: message synthesizer *)

Record MessageTemplate := {
  sender : jsstring;
  subjects : list jsstring;
  bodies : list jsstring
}.

Definition OTP_LENGTHS : list Z := [4; 6; 8].

Definition messageTemplates : list MessageTemplate :=
  [
    {| sender := js "Google";
       subjects := map js
         [ "Google verification code %CODE%";
           "Google security PIN %CODE%" ];
       bodies := map js
         [ "Your Google verification code is %CODE%. Enter this code within 10 minutes to continue.";
           "Google account sign-in attempt detected. Use code %CODE% to verify it's you." ] |};
    {| sender := js "Facebook";
       subjects := map js
         [ "Facebook login code %CODE%";
           "Facebook password reset %CODE%" ];
       bodies := map js
         [ "Someone tried to sign in to Facebook. Use %CODE% to confirm it was you.";
           "Reset your Facebook password with code %CODE%. It expires soon." ] |};
    {| sender := js "WhatsApp";
       subjects := map js
         [ "WhatsApp code %CODE%";
           "WhatsApp secure login %CODE%" ];
       bodies := map js
         [ "Your WhatsApp verification code is %CODE%. Never forward this OTP.";
           "WhatsApp code: %CODE%. Only use this code for the official app." ] |};
    {| sender := js "Instagram";
       subjects := map js
         [ "Instagram confirmation %CODE%";
           "Instagram login help %CODE%" ];
       bodies := map js
         [ "Enter %CODE% on Instagram to finish signing in.";
           "We received a login request. Use code %CODE% if it was you." ] |};
    {| sender := js "Twitter";
       subjects := map js
         [ "Twitter security code %CODE%";
           "Twitter login verification %CODE%" ];
       bodies := map js
         [ "Use %CODE% as your security code for Twitter. Do not share it.";
           "Enter %CODE% to confirm access to your Twitter account." ] |};
    {| sender := js "LinkedIn";
       subjects := map js
         [ "LinkedIn login code %CODE%";
           "LinkedIn security alert %CODE%" ];
       bodies := map js
         [ "Use %CODE% to finish signing in to LinkedIn.";
           "LinkedIn security check: enter code %CODE% to continue." ] |};
    {| sender := js "Amazon";
       subjects := map js
         [ "Amazon verification %CODE%";
           "Amazon account protection %CODE%" ];
       bodies := map js
         [ "Amazon one-time password: %CODE%. Keep your account secure.";
           "Enter %CODE% to confirm recent activity on Amazon." ] |};
    {| sender := js "Apple";
       subjects := map js
         [ "Apple ID sign in %CODE%";
           "Apple security code %CODE%" ];
       bodies := map js
         [ "Use %CODE% as your Apple ID verification code.";
           "Apple verification code %CODE%. It will expire shortly." ] |};
    {| sender := js "Microsoft";
       subjects := map js
         [ "Microsoft account code %CODE%";
           "Microsoft security alert %CODE%" ];
       bodies := map js
         [ "Here is your Microsoft account code: %CODE%.";
           "Microsoft security warning: enter %CODE% if you recognize this sign in." ] |};
    {| sender := js "PayPal";
       subjects := map js
         [ "PayPal confirmation %CODE%";
           "PayPal secure code %CODE%" ];
       bodies := map js
         [ "Use %CODE% to approve recent activity on your PayPal account.";
           "PayPal code %CODE% will expire in 5 minutes." ] |};
    {| sender := js "Netflix";
       subjects := map js
         [ "Netflix access code %CODE%";
           "Netflix login help %CODE%" ];
       bodies := map js
         [ "Netflix verification code: %CODE%.";
           "We detected a new login. Use %CODE% if this was you." ] |};
    {| sender := js "Uber";
       subjects := map js
         [ "Uber verification %CODE%";
           "Uber ride security %CODE%" ];
       bodies := map js
         [ "Enter %CODE% in Uber to complete your sign in.";
           "Uber security check: code %CODE%." ] |};
    {| sender := js "Slack";
       subjects := map js
         [ "Slack login code %CODE%";
           "Slack workspace access %CODE%" ];
       bodies := map js
         [ "Slack verification code: %CODE%.";
           "Use %CODE% to access your Slack workspace." ] |};
    {| sender := js "Zoom";
       subjects := map js
         [ "Zoom meeting code %CODE%";
           "Zoom account security %CODE%" ];
       bodies := map js
         [ "Secure your Zoom account with code %CODE%.";
           "Zoom verification: %CODE%. Never share it." ] |};
    {| sender := js "Dropbox";
       subjects := map js
         [ "Dropbox sign-in code %CODE%";
           "Dropbox device alert %CODE%" ];
       bodies := map js
         [ "Dropbox code %CODE% keeps your files secure.";
           "Someone tried to access Dropbox. Use %CODE% if it was you." ] |};
    {| sender := js "GitHub";
       subjects := map js
         [ "GitHub 2FA code %CODE%";
           "GitHub security check %CODE%" ];
       bodies := map js
         [ "Your GitHub authentication code is %CODE%.";
           "GitHub security: use %CODE% to finish signing in." ] |};
    {| sender := js "Snapchat";
       subjects := map js
         [ "Snapchat login code %CODE%";
           "Snapchat recovery code %CODE%" ];
       bodies := map js
         [ "Enter %CODE% to access Snapchat on your device.";
           "Snapchat recovery code: %CODE%." ] |};
    {| sender := js "Telegram";
       subjects := map js
         [ "Telegram code %CODE%";
           "Telegram sign-in %CODE%" ];
       bodies := map js
         [ "Telegram login code: %CODE%.";
           "Use %CODE% to confirm Telegram access." ] |};
    {| sender := js "Stripe";
       subjects := map js
         [ "Stripe verification %CODE%";
           "Stripe alert %CODE%" ];
       bodies := map js
         [ "Stripe security code: %CODE%.";
           "Enter %CODE% to verify your recent Stripe activity." ] |};
    {| sender := js "Airbnb";
       subjects := map js
         [ "Airbnb confirmation %CODE%";
           "Airbnb login %CODE%" ];
       bodies := map js
         [ "Use %CODE% to confirm your Airbnb booking.";
           "Airbnb login security code: %CODE%." ] |};
    {| sender := js "Spotify";
       subjects := map js
         [ "Spotify access code %CODE%";
           "Spotify sign in %CODE%" ];
       bodies := map js
         [ "Spotify verification code: %CODE%.";
           "Enter %CODE% to continue with Spotify." ] |};
    {| sender := js "Discord";
       subjects := map js
         [ "Discord login code %CODE%";
           "Discord security %CODE%" ];
       bodies := map js
         [ "Discord verification: %CODE%.";
           "Discord code %CODE% prevents unauthorized access." ] |}
  ]%string.

(** [s.replace(/pattern/g, replacement)] for a pattern that is a literal
    text: matches are taken from left to right and do not overlap.  [skip]
    counts the code units of a match that are still to be passed over.  The
    replacement is inserted as it is; the synthesizer only ever passes a
    text of decimal digits, in which [$] does not occur. *)
Fixpoint replaceFrom (pattern replacement : jsstring) (skip : nat)
  (s : jsstring) : jsstring :=
  match s with
  | [] => []
  | c :: s' =>
      match skip with
      | S skip' => replaceFrom pattern replacement skip' s'
      | O =>
          if bool_decide (pattern `prefix_of` s)
          then replacement
                 ++ replaceFrom pattern replacement (length pattern - 1) s'
          else c :: replaceFrom pattern replacement O s'
      end
  end.

Definition replaceAll (pattern replacement s : jsstring) : jsstring :=
  replaceFrom pattern replacement O s.

Definition CODE : jsstring := js "%CODE%".

(** [n.toString()] for the integers [0..9] that [randomInt(0, 9)] returns. *)
Definition digitToString (d : Z) : jsstring := [48 + d].

Definition emptyTemplate : MessageTemplate :=
  {| sender := []; subjects := []; bodies := [] |}.

Section Synthesizer.

Variable entropy : nat -> Z.

(** [for (let i = 0; i < otpLength; i += 1) otp += randomInt(0, 9).toString()],
    with [n] the number of iterations still to run. *)
Fixpoint appendDigits (n : nat) (otp : jsstring) : Rand jsstring :=
  match n with
  | O => ret otp
  | S n' =>
      draw d <- randomInt entropy 0 9 in
      appendDigits n' (otp ++ digitToString d)
  end.

(** [createMessageRecord]; [uuid] is the result of [crypto.randomUUID()]
    and [now] that of [Date.now()].  The array reads are in range (see
    [randomInt_index]), so the defaults below are never used. *)
Definition createMessageRecord (uuid : jsstring) (now : Z)
  : Rand MessageRecord.t :=
  draw t <- randomInt entropy 0 (Z.of_nat (length messageTemplates) - 1) in
  let template := default emptyTemplate (messageTemplates !! Z.to_nat t) in
  draw l <- randomInt entropy 0 (Z.of_nat (length OTP_LENGTHS) - 1) in
  let otpLength := default 0 (OTP_LENGTHS !! Z.to_nat l) in
  draw otp <- appendDigits (Z.to_nat otpLength) [] in
  draw s <- randomInt entropy 0 (Z.of_nat (length (subjects template)) - 1) in
  let subjectTemplate := default [] (subjects template !! Z.to_nat s) in
  draw b <- randomInt entropy 0 (Z.of_nat (length (bodies template)) - 1) in
  let bodyTemplate := default [] (bodies template !! Z.to_nat b) in
  let subject := replaceAll CODE otp subjectTemplate in
  let body := replaceAll CODE otp bodyTemplate in
  let detectedOtp := default otp (extractOtp body) in   (* [?? otp] *)
  ret {| MessageRecord.id := uuid;
         MessageRecord.sender := sender template;
         MessageRecord.subject := subject;
         MessageRecord.body := body;
         MessageRecord.otp := Some detectedOtp;
         MessageRecord.timestamp := now |}.

End Synthesizer.

(** ** db.ts: bounded record store *)

(** What the store needs of a record: the key path [id] and the indexed
    property [timestamp]. *)
Class Stored (T : Type) := {
  recordId : T -> jsstring;
  recordTimestamp : T -> Z
}.

Global Instance CredentialRecord_Stored : Stored CredentialRecord.t :=
  {| recordId := CredentialRecord.id;
     recordTimestamp := CredentialRecord.timestamp |}.

Global Instance MessageRecord_Stored : Stored MessageRecord.t :=
  {| recordId := MessageRecord.id;
     recordTimestamp := MessageRecord.timestamp |}.

Definition STORE_LIMIT : nat := 100.

Section Store.

Context {T : Type} `{Stored T}.

(** One logical store: the module-level fallback array
    ([inMemoryCredentials] or [inMemoryMessages]) and the IndexedDB object
    store of the same name, whose key path is [id]. *)
Record Store := {
  inMemory : list T;
  objectStore : gmap jsstring T
}.

Definition emptyStore : Store := {| inMemory := []; objectStore := ∅ |}.

(** [array.sort((a, b) => b.timestamp - a.timestamp)]: the sort of the
    language is stable, so the result is the one of a stable insertion
    sort.  An element is placed before the elements that come later in the
    array and have a timestamp that is not greater. *)
Fixpoint insertDesc (a : T) (sorted : list T) : list T :=
  match sorted with
  | [] => [a]
  | b :: sorted' =>
      if recordTimestamp b - recordTimestamp a >? 0
      then b :: insertDesc a sorted'
      else a :: sorted
  end.

Definition sortDesc (array : list T) : list T :=
  foldr insertDesc [] array.

(** [array.splice(0, n)]: removes [n] elements starting at index 0. *)
Definition splice0 (n : nat) (array : list T) : list T := drop n array.

(** The entry of a record in the index [timestamp]: index key, then
    primary key. *)
Definition indexEntry (r : T) : Z * jsstring :=
  (recordTimestamp r, recordId r).

(** [r1] is visited no later than [r2] by a cursor of direction [prev]:
    entries are visited in decreasing order. *)
Definition visitedBefore (r1 r2 : T) : Prop :=
  ¬ lexico (indexEntry r1) (indexEntry r2).

Global Instance visitedBefore_dec r1 r2 : Decision (visitedBefore r1 r2).
Proof. unfold visitedBefore. apply _. Defined.

(** [index.openCursor(null, "prev")]: the records in the order in which
    the cursor visits them. *)
Definition openCursorPrev (os : gmap jsstring T) : list T :=
  merge_sort visitedBefore (snd <$> map_to_list os).

(** The [onsuccess] handler of [trimStore], run over the records the
    cursor visits: [count++; if (count > STORE_LIMIT) cursor.delete()]. *)
Fixpoint trimCursor (count : nat) (cursor : list T) (os : gmap jsstring T)
  : gmap jsstring T :=
  match cursor with
  | [] => os
  | r :: cursor' =>
      let count := S count in
      let os := if (STORE_LIMIT <? count)%nat
                then delete (recordId r) os else os in
      trimCursor count cursor' os
  end.

Variable hasIndexedDB : bool.

Definition trimStore (st : Store) : Store :=
  if negb hasIndexedDB then
    if (STORE_LIMIT <? length (inMemory st))%nat
    then {| inMemory :=
              splice0 (length (inMemory st) - STORE_LIMIT) (inMemory st);
            objectStore := objectStore st |}
    else st
  else
    {| inMemory := inMemory st;
       objectStore :=
         trimCursor O (openCursorPrev (objectStore st)) (objectStore st) |}.

(** [persistCredential] and [persistMessage] have the same body. *)
Definition persist (record : T) (st : Store) : Store :=
  if negb hasIndexedDB then
    let pushed := inMemory st ++ [record] in
    let sorted := sortDesc pushed in
    trimStore {| inMemory := sorted; objectStore := objectStore st |}
  else
    trimStore
      {| inMemory := inMemory st;
         objectStore := <[recordId record := record]> (objectStore st) |}.

Definition fetchRecords (st : Store) : list T :=
  if negb hasIndexedDB then inMemory st
  else openCursorPrev (objectStore st).

(** The store after a sequence of puts, the first of the list first. *)
Definition persistAll (records : list T) (st : Store) : Store :=
  foldl (fun st record => persist record st) st records.

End Store.

Arguments Store T : clear implicits.

Definition persistCredential := persist (T := CredentialRecord.t).
Definition persistMessage := persist (T := MessageRecord.t).
Definition loadCredentials := fetchRecords (T := CredentialRecord.t).
Definition loadMessages := fetchRecords (T := MessageRecord.t).

(** ** Vocabulary of the statements *)

(** What the padding of an email's local part is made of. *)
Definition isLowerOrDigit (c : Z) : Prop := isLower c || isDigit c = true.

(** The alphabet [allChars] of [generateSecurePassword]. *)
Definition allChars : jsstring :=
  LETTERS ++ LETTERS_UPPER ++ NUMBERS ++ SYMBOLS.

(** The code unit of [@]. *)
Definition AT : Z := 64.

(** Number of occurrences of a code unit in a text. *)
Definition occurrences (u : Z) (s : jsstring) : nat := count_occ Z.eq_dec s u.

(** The number of draws consumed when the [k]-th nested call of
    [generateSecurePassword] starts, the outermost call being call 0 and
    starting at [n]: every call before it made one attempt. *)
Fixpoint attemptStart (entropy : nat -> Z) (k : nat) (n : nat) : nat :=
  match k with
  | O => n
  | S k' => attemptStart entropy k' (snd (passwordAttempt entropy n))
  end.

(** The candidate of the [k]-th nested call. *)
Definition candidate (entropy : nat -> Z) (n k : nat) : jsstring :=
  fst (passwordAttempt entropy (attemptStart entropy k n)).

(** The [k]-th nested call is the first whose candidate is accepted. *)
Definition firstAccepted (entropy : nat -> Z) (n k : nat) : Prop :=
  passwordHasRequirements (candidate entropy n k) = true
  /\ forall j, (j < k)%nat ->
               passwordHasRequirements (candidate entropy n j) = false.

(** A random source that only ever delivers 0. *)
Definition zeroEntropy : nat -> Z := fun _ => 0.

(** A random source whose first 13 draws are 0 and whose later draws vary. *)
Definition lateEntropy : nat -> Z :=
  fun n => if (n <? 13)%nat then 0 else Z.of_nat n * 7919 + 13.

(** *** The strength score as the specification words it

    Seven signals, each worth one point. *)

(** Number of distinct characters (elements of the string iterator). *)
Definition distinctCharacterCount (password : jsstring) : Z :=
  Z.of_nat (length (remove_dups (codePoints password))).

Definition containsA (cls : Z -> bool) (password : jsstring) : Prop :=
  Exists (fun c => cls c = true) password.

Definition strengthSignals (password : jsstring) : list bool :=
  [ bool_decide (12 <= jsLength password);
    bool_decide (14 <= jsLength password);
    bool_decide (containsA isUpper password);
    bool_decide (containsA isLower password);
    bool_decide (containsA isDigit password);
    bool_decide (containsA (fun c => negb (isWord c)) password);
    bool_decide (jsLength password - 2 <= distinctCharacterCount password) ].

Definition signalScore (password : jsstring) : Z :=
  foldr (fun signal total => Z.b2z signal + total) 0 (strengthSignals password).

(** *** Standalone digit runs

    [text = pre ++ m ++ post] where [m] is a run of 4, 6 or 8 decimal digits
    with a word boundary on either side: the code unit before it and the one
    after it, if any, are not word characters. *)
Definition standalone (pre m post : jsstring) : Prop :=
  (length m = 4 \/ length m = 6 \/ length m = 8)%nat
  /\ Forall (fun c => isDigit c = true) m
  /\ wordAt (last pre) = false
  /\ wordAt (head post) = false.

Definition digitAt (c : option Z) : bool :=
  match c with
  | Some c => isDigit c
  | None => false
  end.

(** *** Vocabulary of the store laws *)

Section StoreVocabulary.

Context {T : Type} `{Stored T}.

(** [a] may come before [b] in a listing by descending timestamp. *)
Definition notOlder (a b : T) : Prop :=
  recordTimestamp b <= recordTimestamp a.

Definition descendingTimestamps (l : list T) : Prop :=
  StronglySorted notOlder l.

(** The records a store holds: the values of the object store when
    IndexedDB is there, the fallback array otherwise. *)
Definition storedRecords (hasIndexedDB : bool) (st : Store T) : list T :=
  if hasIndexedDB then snd <$> map_to_list (objectStore st)
  else inMemory st.

(** The key path of the object store is [id]: every record sits under its
    own id.  It holds of the empty object store and [put] keeps it. *)
Definition keyedById (os : gmap jsstring T) : Prop :=
  forall k r, os !! k = Some r -> recordId r = k.

End StoreVocabulary.

(** The store once the program has put [records], in this order, the
    object store having held [before] when the program started and the
    fallback array being empty then. *)
Definition storeAfter {T : Type} `{Stored T} (hasIndexedDB : bool)
    (before : gmap jsstring T) (records : list T) : Store T :=
  persistAll hasIndexedDB records {| inMemory := []; objectStore := before |}.

(** The record [createMessageRecord] returns after [n] draws. *)
Definition synthesized (entropy : nat -> Z) (uuid : jsstring) (now : Z)
    (n : nat) : MessageRecord.t :=
  fst (createMessageRecord entropy uuid now n).

(** A credential record whose id and timestamp are both [i]. *)
Definition credentialAt (i : nat) : CredentialRecord.t :=
  {| CredentialRecord.id := [Z.of_nat i];
     CredentialRecord.email := [];
     CredentialRecord.password := [];
     CredentialRecord.strength := weak;
     CredentialRecord.timestamp := Z.of_nat i |}.

(** A message record with the given id and timestamp. *)
Definition messageAt (i : string) (t : Z) : MessageRecord.t :=
  {| MessageRecord.id := js i;
     MessageRecord.sender := [];
     MessageRecord.subject := [];
     MessageRecord.body := [];
     MessageRecord.otp := None;
     MessageRecord.timestamp := t |}.

(** ** App.tsx: settings

    [theme] and [language] are strings at run time: what [localStorage]
    returns is used as it is. *)

Record AppSettings := {
  theme : jsstring;
  language : jsstring;
  notifications : bool
}.

Definition THEME_KEY : jsstring := js "temp-inbox-theme".
Definition LANGUAGE_KEY : jsstring := js "temp-inbox-language".
Definition NOTIFICATIONS_KEY : jsstring := js "temp-inbox-notifications".

(** A string used as a condition: the empty string counts as false. *)
Definition truthy (s : jsstring) : bool := negb (bool_decide (s = [])).

(** [getInitialSettings]; [windowDefined] is [typeof window !== "undefined"],
    [permission] is [window.Notification.permission] when [Notification] is
    in [window], and [storage] is [window.localStorage], in which [getItem]
    of a missing key is [null]. *)
Definition getInitialSettings (windowDefined : bool)
    (permission : option jsstring) (storage : gmap jsstring jsstring)
  : AppSettings :=
  if negb windowDefined then
    {| theme := js "dark"; language := js "en"; notifications := true |}
  else
    let notificationPermission := default (js "default") permission in
    let storedTheme := storage !! THEME_KEY in
    let storedLanguage := storage !! LANGUAGE_KEY in
    let storedNotifications := storage !! NOTIFICATIONS_KEY in
    {| theme := default (js "dark") storedTheme;
       language := default (js "en") storedLanguage;
       notifications :=
         match storedNotifications with
         | Some stored =>
             if truthy stored
             then bool_decide (stored = js "true")
             else bool_decide (notificationPermission = js "granted")
         | None => bool_decide (notificationPermission = js "granted")
         end |}.

(** The three effects of [App] that write the settings back, each a
    [localStorage.setItem]. *)
Definition storeTheme (settings : AppSettings)
    (storage : gmap jsstring jsstring) : gmap jsstring jsstring :=
  <[THEME_KEY := theme settings]> storage.

Definition storeLanguage (settings : AppSettings)
    (storage : gmap jsstring jsstring) : gmap jsstring jsstring :=
  <[LANGUAGE_KEY := language settings]> storage.

Definition storeNotifications (settings : AppSettings)
    (storage : gmap jsstring jsstring) : gmap jsstring jsstring :=
  <[NOTIFICATIONS_KEY :=
      if notifications settings then js "true" else js "false"]> storage.

(** ** App.tsx: notifications *)

Module Notification.
Record t := {
  title : jsstring;
  body : jsstring
}.
End Notification.

(** [showNotification]: the notification it creates, if any.  [permission]
    is [window.Notification.permission]. *)
Definition showNotification (isNotificationSupported : bool)
    (settings : AppSettings) (permission : jsstring)
    (record : MessageRecord.t) : option Notification.t :=
  if negb isNotificationSupported then None
  else if negb (notifications settings) then None
  else if negb (bool_decide (permission = js "granted")) then None
  else
    Some {| Notification.title :=
              match MessageRecord.otp record with
              | Some otp =>
                  if truthy otp
                  then MessageRecord.sender record ++ js ": " ++ otp
                  else MessageRecord.sender record
              | None => MessageRecord.sender record
              end;
            Notification.body := MessageRecord.subject record |}.

(** ** App.tsx: the lists on screen and the handlers that feed them *)

(** [[record, ...prev].slice(0, 150)] *)
Definition prependCapped {T : Type} (record : T) (prev : list T) : list T :=
  take 150 (record :: prev).

(** The message side of [App]: the state [messages], the message store
    behind [persistMessage], and the notifications created so far. *)
Record Inbox := {
  messages : list MessageRecord.t;
  messageStore : Store MessageRecord.t;
  notificationsShown : list Notification.t
}.

(** What [pushMessage] reads from its environment. *)
Record Environment := {
  hasIndexedDB : bool;
  isNotificationSupported : bool;
  settings : AppSettings;
  permission : jsstring
}.

(** [pushMessage]: the state update, the put (whose failure the handler
    ignores; the put is taken to succeed) and the notification. *)
Definition pushMessage (env : Environment) (record : MessageRecord.t)
    (inbox : Inbox) : Inbox :=
  {| messages := prependCapped record (messages inbox);
     messageStore :=
       persistMessage (hasIndexedDB env) record (messageStore inbox);
     notificationsShown :=
       match showNotification (isNotificationSupported env) (settings env)
               (permission env) record with
       | Some notification => notificationsShown inbox ++ [notification]
       | None => notificationsShown inbox
       end |}.

(** The credential side of [App]. *)
Record Vault := {
  credentials : list CredentialRecord.t;
  currentCredential : option CredentialRecord.t;
  credentialStore : Store CredentialRecord.t
}.

(** [handleGenerateCredential]; [depth] bounds the nested calls of
    [generateSecurePassword] as there, [uuid] is [crypto.randomUUID()] and
    [now] is [Date.now()]. *)
Definition handleGenerateCredential (entropy : nat -> Z) (depth : nat)
    (hasIndexedDB : bool) (uuid : jsstring) (now : Z) (vault : Vault)
  : Rand (option Vault) :=
  draw email <- generateRandomEmail entropy in
  draw generated <- generateSecurePassword entropy depth in
  match generated with
  | None => ret None
  | Some password =>
      let strength := evaluateStrength password in
      let record :=
        {| CredentialRecord.id := uuid;
           CredentialRecord.email := email;
           CredentialRecord.password := password;
           CredentialRecord.strength := strength;
           CredentialRecord.timestamp := now |} in
      ret (Some
             {| currentCredential := Some record;
                credentials := prependCapped record (credentials vault);
                credentialStore :=
                  persistCredential hasIndexedDB record
                    (credentialStore vault) |})
  end.

(** The effect of [App] that reads the stores when the component mounts:
    [setCredentials(storedCredentials)], [setCurrentCredential] of the first
    one if there is one, [setMessages(storedMessages)]. *)
Definition loadStored (hasIndexedDB : bool) (vault : Vault) (inbox : Inbox)
  : Vault * Inbox :=
  let storedCredentials :=
    loadCredentials hasIndexedDB (credentialStore vault) in
  let storedMessages := loadMessages hasIndexedDB (messageStore inbox) in
  ({| credentials := storedCredentials;
      currentCredential :=
        match head storedCredentials with
        | Some first => Some first
        | None => currentCredential vault
        end;
      credentialStore := credentialStore vault |},
   {| messages := storedMessages;
      messageStore := messageStore inbox;
      notificationsShown := notificationsShown inbox |}).

(** ** App.tsx: the message timer

    [pendingTimers] are the timeouts set by [scheduleNextMessage] that have
    neither fired nor been cleared, with their delays; [generatorTimeout] is
    the ref of that name. *)
Record Timers := {
  pendingTimers : gmap nat Z;
  generatorTimeout : option nat
}.

Definition noTimers : Timers :=
  {| pendingTimers := ∅; generatorTimeout := None |}.

(** [if (generatorTimeout.current) window.clearTimeout(generatorTimeout.current)];
    a handle 0 counts as false. *)
Definition clearGeneratorTimeout (timers : Timers) : Timers :=
  match generatorTimeout timers with
  | Some handle =>
      if Nat.eqb handle 0 then timers
      else {| pendingTimers := delete handle (pendingTimers timers);
              generatorTimeout := generatorTimeout timers |}
  | None => timers
  end.

(** [scheduleNextMessage]; [handle] is the number [window.setTimeout]
    returns. *)
Definition scheduleNextMessage (entropy : nat -> Z) (handle : nat)
    (timers : Timers) : Rand Timers :=
  let timers := clearGeneratorTimeout timers in
  draw seconds <- randomInt entropy 10 30 in
  let delay := seconds * 1000 in
  ret {| pendingTimers := <[handle := delay]> (pendingTimers timers);
         generatorTimeout := Some handle |}.

(** The body shared by the timer callback and [handleRefreshMessages]:
    [createMessageRecord], [pushMessage], [scheduleNextMessage]. *)
Definition synthesizeAndSchedule (entropy : nat -> Z) (env : Environment)
    (uuid : jsstring) (now : Z) (handle : nat) (state : Inbox * Timers)
  : Rand (Inbox * Timers) :=
  draw record <- createMessageRecord entropy uuid now in
  let inbox := pushMessage env record (fst state) in
  draw timers <- scheduleNextMessage entropy handle (snd state) in
  ret (inbox, timers).

(** What can happen to the timer. *)
Inductive TimerEvent :=
| Arm (handle : nat)
    (* [scheduleNextMessage()] from the mount effect or on becoming visible *)
| Fire (fired : nat) (uuid : jsstring) (now : Z) (handle : nat)
    (* the timeout [fired] elapses and its callback runs *)
| Refresh (uuid : jsstring) (now : Z) (handle : nat)
    (* [handleRefreshMessages] *)
| Cleanup.
    (* the cleanup of the mount effect *)

(** [window.setTimeout] returns a positive number that no pending timer
    has; [scheduleNextMessage] calls it after it has cleared the timeout of
    the ref. *)
Definition freshHandle (handle : nat) (timers : Timers) : bool :=
  negb (Nat.eqb handle 0)
  && bool_decide (pendingTimers timers !! handle = None).

(** One event; [None] when the event cannot happen in the state (a timer
    that is not pending does not fire, a handle in use is not handed out). *)
Definition timerStep (entropy : nat -> Z) (env : Environment)
    (event : TimerEvent) (state : Inbox * Timers)
  : Rand (option (Inbox * Timers)) :=
  match event with
  | Arm handle =>
      if freshHandle handle (clearGeneratorTimeout (snd state)) then
        draw timers <- scheduleNextMessage entropy handle (snd state) in
        ret (Some (fst state, timers))
      else ret None
  | Fire fired uuid now handle =>
      match pendingTimers (snd state) !! fired with
      | Some _ =>
          let timers :=
            {| pendingTimers := delete fired (pendingTimers (snd state));
               generatorTimeout := generatorTimeout (snd state) |} in
          if freshHandle handle (clearGeneratorTimeout timers) then
            draw state' <- synthesizeAndSchedule entropy env uuid now handle
                             (fst state, timers) in
            ret (Some state')
          else ret None
      | None => ret None
      end
  | Refresh uuid now handle =>
      if freshHandle handle (clearGeneratorTimeout (snd state)) then
        draw state' <- synthesizeAndSchedule entropy env uuid now handle
                         state in
        ret (Some state')
      else ret None
  | Cleanup => ret (Some (fst state, clearGeneratorTimeout (snd state)))
  end.

(** A sequence of events, stopping at the first one that cannot happen. *)
Fixpoint timerRun (entropy : nat -> Z) (env : Environment)
    (events : list TimerEvent) (state : Inbox * Timers)
  : Rand (option (Inbox * Timers)) :=
  match events with
  | [] => ret (Some state)
  | event :: events' =>
      draw next <- timerStep entropy env event state in
      match next with
      | Some state' => timerRun entropy env events' state'
      | None => ret None
      end
  end.

(** *** Vocabulary of the further laws *)

(** The timer is in order: every pending timeout is the one the ref holds,
    and it is due 10 to 30 whole seconds after it was set. *)
Definition timersInOrder (timers : Timers) : Prop :=
  forall handle delay,
    pendingTimers timers !! handle = Some delay ->
    generatorTimeout timers = Some handle
    /\ handle <> O
    /\ exists seconds, delay = seconds * 1000 /\ 10 <= seconds <= 30.

(** The first occurrence of [pattern] in [s]: what precedes it and what
    follows it. *)
Fixpoint splitAtFirst (pattern s : jsstring) : option (jsstring * jsstring) :=
  if bool_decide (pattern `prefix_of` s)
  then Some ([], drop (length pattern) s)
  else
    match s with
    | [] => None
    | c :: s' =>
        match splitAtFirst pattern s' with
        | Some (pre, post) => Some (c :: pre, post)
        | None => None
        end
    end.

(** A body template in which the code, once filled in, is the first
    standalone digit run: the placeholder occurs, stands between word
    boundaries, is not followed by another placeholder, and no standalone
    digit run precedes it. *)
Definition codeStandsAlone (template : jsstring) : bool :=
  match splitAtFirst CODE template with
  | Some (pre, post) =>
      negb (wordAt (last pre))
      && negb (wordAt (head post))
      && negb (bool_decide (CODE `prefix_of` post))
      && bool_decide (extractOtp pre = None)
  | None => false
  end.

(** A message record with the given id, timestamp and code. *)
Definition messageWith (i : string) (t : Z) (code : string)
  : MessageRecord.t :=
  {| MessageRecord.id := js i;
     MessageRecord.sender := js "Google";
     MessageRecord.subject := js "Google verification code " ++ js code;
     MessageRecord.body := js "Your code is " ++ js code ++ js ".";
     MessageRecord.otp := Some (js code);
     MessageRecord.timestamp := t |}.

(** The credential side before anything was generated or loaded. *)
Definition emptyVault : Vault :=
  {| credentials := []; currentCredential := None;
     credentialStore := emptyStore |}.

(** The vault after one credential was generated from [lateEntropy]. *)
Definition generatedVault : Vault :=
  default emptyVault
    (fst (handleGenerateCredential lateEntropy 2 true (js "u-1") 1700
            emptyVault 0%nat)).

(** A subject template that ends with its only placeholder. *)
Definition endsWithCode (template : jsstring) : bool :=
  match splitAtFirst CODE template with
  | Some (_, []) => true
  | _ => false
  end.

(** Settings with notifications switched on. *)
Definition notifyingSettings : AppSettings :=
  {| theme := js "dark"; language := js "en"; notifications := true |}.

(** A message made from [lateEntropy]. *)
Definition sampleMessage : MessageRecord.t :=
  synthesized lateEntropy (js "m-1") 1700 40%nat.

(** The inbox before any message was pushed or loaded. *)
Definition emptyInbox : Inbox :=
  {| messages := []; messageStore := emptyStore; notificationsShown := [] |}.

(** A credential store, with IndexedDB, after 100 puts with the timestamps
    1 to 100. *)
Definition fullCredentialStore : Store CredentialRecord.t :=
  persistAll true (credentialAt <$> seq 1 100) emptyStore.

(** A vault whose credential store has seen three puts, with IndexedDB. *)
Definition storedVault : Vault :=
  {| credentials := []; currentCredential := None;
     credentialStore :=
       storeAfter true ∅ [credentialAt 2; credentialAt 3; credentialAt 1] |}.

(** An environment with IndexedDB and notifications. *)
Definition indexedDBEnvironment : Environment :=
  {| hasIndexedDB := true; isNotificationSupported := true;
     settings := notifyingSettings; permission := js "granted" |}.

(** The inbox after one message was pushed. *)
Definition inboxAfterOne : Inbox :=
  pushMessage indexedDBEnvironment (messageWith "a" 1 "1234") emptyInbox.

(** A run of the timer: armed, fired, refreshed by hand, cleaned up and
    armed again. *)
Definition sampleEvents : list TimerEvent :=
  [ Arm 1; Fire 1 (js "m-1") 1700 2; Refresh (js "m-2") 1800 3; Cleanup;
    Arm 3 ].

Definition sampleRun : Inbox * Timers :=
  default (emptyInbox, noTimers)
    (fst (timerRun lateEntropy indexedDBEnvironment sampleEvents
            (emptyInbox, noTimers) 0%nat)).

(** Timers with one timeout pending, the one the ref holds. *)
Definition armedTimers : Timers :=
  {| pendingTimers := {[3%nat := 19 * 1000]};
     generatorTimeout := Some 3%nat |}.

(** How many of the four character classes of the strength score (uppercase,
    lowercase, digit, non-word) a text holds. *)
Definition classesPresent (password : jsstring) : Z :=
  Z.b2z (testClass isUpper password)
  + Z.b2z (testClass isLower password)
  + Z.b2z (testClass isDigit password)
  + Z.b2z (testClass (fun c => negb (isWord c)) password).

(** * Properties *)

(** ** Random generator *)

Section GeneratorFacts.

Variable entropy : nat -> Z.

Lemma getRandomUint32_range n :
  0 <= fst (getRandomUint32 entropy n) < 2 ^ 32.
Proof. cbn [getRandomUint32 fst]. apply Z.mod_pos_bound. lia. Qed.

Lemma randomInt_eq min max n :
  randomInt entropy min max n
  = (min + Z.rem (entropy n mod 2 ^ 32) (max - min + 1), S n).
Proof. reflexivity. Qed.

Lemma randomInt_range min max n :
  min <= max ->
  min <= fst (randomInt entropy min max n) <= max.
Proof.
  intros Hle. rewrite randomInt_eq. cbn [fst].
  pose proof (Z.mod_pos_bound (entropy n) (2 ^ 32) ltac:(lia)) as Hu.
  pose proof (Z.rem_bound_pos (entropy n mod 2 ^ 32) (max - min + 1)
                ltac:(lia) ltac:(lia)).
  lia.
Qed.

Lemma randomChar_eq source n :
  randomChar entropy source n
  = (charAt source (Z.rem (entropy n mod 2 ^ 32) (jsLength source)), S n).
Proof. reflexivity. Qed.

(** On a non-empty alphabet [randomChar] yields one code unit of it. *)
Lemma randomChar_elem source n :
  source <> [] ->
  exists c, fst (randomChar entropy source n) = [c] /\ c ∈ source.
Proof.
  intros Hne. rewrite randomChar_eq. cbn [fst]. unfold charAt.
  pose proof (Z.mod_pos_bound (entropy n) (2 ^ 32) ltac:(lia)) as Hu.
  assert (0 < jsLength source) as Hlen.
  { unfold jsLength. destruct source; [done | cbn [Datatypes.length]; lia]. }
  pose proof (Z.rem_bound_pos (entropy n mod 2 ^ 32) (jsLength source)
                ltac:(lia) Hlen) as Hr.
  destruct (lookup_lt_is_Some_2 source
              (Z.to_nat (Z.rem (entropy n mod 2 ^ 32) (jsLength source))))
    as [c Hc].
  { unfold jsLength in *. lia. }
  rewrite Hc. exists c. split; [done |].
  by eapply list_elem_of_lookup_2.
Qed.

Lemma randomChar_next source n : snd (randomChar entropy source n) = S n.
Proof. reflexivity. Qed.

(** The alphabets hold what their names say. *)
Lemma LETTERS_lower : Forall (fun c => isLower c = true) LETTERS.
Proof. refine (bool_decide_unpack _ _). by vm_compute. Qed.

Lemma NUMBERS_digit : Forall (fun c => isDigit c = true) NUMBERS.
Proof. refine (bool_decide_unpack _ _). by vm_compute. Qed.

Lemma padLocal_spec fuel localLength local n :
  localLength <= Z.of_nat fuel + jsLength local ->
  exists pad,
    fst (padLocal entropy fuel localLength local n) = local ++ pad
    /\ Forall isLowerOrDigit pad
    /\ jsLength (local ++ pad) = Z.max (jsLength local) localLength.
Proof.
  revert local n.
  induction fuel as [| fuel IH]; intros local n Hfuel; cbn [padLocal].
  - exists []. rewrite app_nil_r. repeat split; [constructor | lia].
  - destruct (Z.ltb_spec (jsLength local) localLength) as [Hlt | Hge].
    + unfold bind at 1. rewrite randomInt_eq.
      set (set := if _ =? 0 then LETTERS else NUMBERS).
      unfold bind at 1.
      destruct (randomChar_elem set (S n)) as (c & Hc & Hin).
      { subst set. by destruct (_ =? 0). }
      destruct (randomChar entropy set (S n)) as [cs n2]. cbn [fst] in Hc.
      subst cs.
      destruct (IH (local ++ [c]) n2) as (pad & Heq & Hpad & Hlen).
      { unfold jsLength in *. rewrite length_app. cbn [Datatypes.length]. lia. }
      exists (c :: pad). rewrite Heq, <- app_assoc. cbn [app].
      split; [done |]. split.
      * constructor; [| done]. unfold isLowerOrDigit. subst set.
        destruct (_ =? 0).
        -- rewrite (proj1 (Forall_forall _ _) LETTERS_lower c Hin). done.
        -- rewrite (proj1 (Forall_forall _ _) NUMBERS_digit c Hin).
           by rewrite orb_true_r.
      * rewrite <- app_assoc in Hlen. cbn [app] in Hlen. rewrite Hlen.
        unfold jsLength in *. rewrite length_app. cbn [Datatypes.length]. lia.
    + exists []. rewrite app_nil_r. repeat split; [constructor | lia].
Qed.

Lemma fillPassword_length fuel len password n :
  len <= Z.of_nat fuel + jsLength password ->
  jsLength (fst (fillPassword entropy fuel len password n))
  = Z.max (jsLength password) len.
Proof.
  revert password n.
  induction fuel as [| fuel IH]; intros password n Hfuel;
    cbn [fillPassword].
  - cbn [ret fst]. lia.
  - destruct (Z.ltb_spec (jsLength password) len) as [Hlt | Hge].
    + unfold bind at 1.
      destruct (randomChar_elem allChars n) as (c & Hc & _); [done |].
      fold allChars.
      destruct (randomChar entropy allChars n) as [cs n2]. cbn [fst] in Hc.
      subst cs. rewrite IH.
      * unfold jsLength. rewrite length_app. cbn [Datatypes.length].
        unfold jsLength in Hlt. lia.
      * unfold jsLength in *. rewrite length_app. cbn [Datatypes.length]. lia.
    + cbn [ret fst]. lia.
Qed.

Lemma passwordAttempt_length n :
  12 <= jsLength (fst (passwordAttempt entropy n)) <= 16.
Proof.
  unfold passwordAttempt, bind.
  pose proof (randomInt_range 12 16 n ltac:(lia)) as Hr.
  destruct (randomInt entropy 12 16 n) as [len n1]. cbn [fst] in Hr.
  rewrite fillPassword_length; unfold jsLength; cbn [Datatypes.length]; lia.
Qed.

Lemma phoneticPrefixes_short :
  Forall (fun p => jsLength p <= 7 /\ occurrences AT p = 0%nat)
    phoneticPrefixes.
Proof. refine (bool_decide_unpack _ _). by vm_compute. Qed.

Lemma EMAIL_DOMAINS_no_at :
  Forall (fun d => occurrences AT d = 0%nat) EMAIL_DOMAINS.
Proof. refine (bool_decide_unpack _ _). by vm_compute. Qed.

Lemma occurrences_app u s1 s2 :
  occurrences u (s1 ++ s2) = (occurrences u s1 + occurrences u s2)%nat.
Proof. apply count_occ_app. Qed.

Lemma pad_no_at pad : Forall isLowerOrDigit pad -> occurrences AT pad = 0%nat.
Proof.
  induction 1 as [| c pad Hc _ IH]; [done |].
  unfold occurrences in *. cbn [count_occ].
  destruct (Z.eq_dec c AT) as [-> | _]; [| done].
  by vm_compute in Hc.
Qed.

(** An array read at an index that [randomInt(0, length - 1)] returns. *)
Lemma randomInt_index {A} (l : list A) n :
  l <> [] ->
  exists x,
    l !! Z.to_nat (fst (randomInt entropy 0 (Z.of_nat (length l) - 1) n))
    = Some x.
Proof.
  intros Hne.
  assert (0 < Z.of_nat (length l)).
  { destruct l; [done | cbn [Datatypes.length]; lia]. }
  pose proof (randomInt_range 0 (Z.of_nat (length l) - 1) n ltac:(lia)).
  apply lookup_lt_is_Some_2. lia.
Qed.

End GeneratorFacts.

(** [C9] Every email address that [generateRandomEmail] returns is a local
    part, one [@] and a domain: the local part starts with a word of
    [phoneticPrefixes], continues with lowercase letters and digits only and
    has 8 to 12 code units; the domain is a member of [EMAIL_DOMAINS]; and
    [@] occurs exactly once in the whole address. *)
Theorem generateRandomEmail_shape (entropy : nat -> Z) (n : nat) :
  exists prefix pad domain,
    fst (generateRandomEmail entropy n) = (prefix ++ pad) ++ [AT] ++ domain
    /\ prefix ∈ phoneticPrefixes
    /\ Forall isLowerOrDigit pad
    /\ 8 <= jsLength (prefix ++ pad) <= 12
    /\ domain ∈ EMAIL_DOMAINS
    /\ occurrences AT (fst (generateRandomEmail entropy n)) = 1%nat.
Proof.
  unfold generateRandomEmail, bind.
  pose proof (randomInt_range entropy 8 12 n ltac:(lia)) as Hlen.
  destruct (randomInt entropy 8 12 n) as [localLength n1]. cbn [fst] in Hlen.
  destruct (randomInt_index entropy phoneticPrefixes n1) as [prefix Hp];
    [done |].
  destruct (randomInt entropy 0 _ n1) as [i n2]. cbn [fst] in Hp.
  rewrite Hp. cbn [from_option id].
  apply list_elem_of_lookup_2 in Hp.
  pose proof (proj1 (Forall_forall _ _) phoneticPrefixes_short _ Hp)
    as [Hshort Hpat].
  destruct (padLocal_spec entropy (Z.to_nat localLength) localLength prefix n2)
    as (pad & Heq & Hpad & Hpl).
  { unfold jsLength. lia. }
  destruct (padLocal entropy _ localLength prefix n2) as [local n3].
  cbn [fst] in Heq. subst local.
  destruct (randomInt_index entropy EMAIL_DOMAINS n3) as [domain Hd];
    [done |].
  destruct (randomInt entropy 0 _ n3) as [j n4]. cbn [fst] in Hd.
  rewrite Hd. cbn [from_option id ret fst].
  apply list_elem_of_lookup_2 in Hd.
  exists prefix, pad, domain.
  split; [done |]. split; [done |]. split; [done |]. split; [lia |].
  split; [done |].
  change (js "@") with [AT].
  rewrite !occurrences_app, Hpat, (pad_no_at pad Hpad).
  rewrite (proj1 (Forall_forall _ _) EMAIL_DOMAINS_no_at _ Hd).
  reflexivity.
Qed.

(** ** Password generation *)

Lemma testClass_elem cls s :
  testClass cls s = true <-> exists c, c ∈ s /\ cls c = true.
Proof.
  unfold testClass. rewrite existsb_exists.
  split; intros (c & Hin & Hc); exists c; split; try done;
    by apply list_elem_of_In.
Qed.

(** [C4] A password that [generateSecurePassword] returns has 12 to 16 code
    units and passes [passwordHasRequirements]: it holds an uppercase
    letter, a lowercase letter, a digit and a code unit outside
    [A-Za-z0-9]. *)
Theorem generateSecurePassword_sound (entropy : nat -> Z) (depth n : nat)
    (password : jsstring) (n' : nat) :
  generateSecurePassword entropy depth n = (Some password, n') ->
  12 <= jsLength password <= 16
  /\ passwordHasRequirements password = true
  /\ (exists c, c ∈ password /\ isUpper c = true)
  /\ (exists c, c ∈ password /\ isLower c = true)
  /\ (exists c, c ∈ password /\ isDigit c = true)
  /\ (exists c, c ∈ password /\ isAlnum c = false).
Proof.
  revert n. induction depth as [| depth IH]; intros n Hrun; [done |].
  cbn [generateSecurePassword] in Hrun. unfold bind in Hrun.
  pose proof (passwordAttempt_length entropy n) as Hlen.
  destruct (passwordAttempt entropy n) as [candidate n1]. cbn [fst] in Hlen.
  destruct (passwordHasRequirements candidate) eqn:Hreq; cbn [negb] in Hrun.
  - injection Hrun as -> ->. split; [done |]. split; [done |].
    unfold passwordHasRequirements in Hreq.
    repeat (apply andb_prop in Hreq as [Hreq ?]).
    repeat split; try (by apply testClass_elem).
    match goal with
    | Hs : testClass (fun c => negb (isAlnum c)) _ = true |- _ =>
        apply testClass_elem in Hs as (c & Hin & Hc)
    end.
    exists c. split; [done |]. by apply negb_true_iff.
  - by eapply IH.
Qed.

Lemma generateSecurePassword_sound_witness :
  generateSecurePassword lateEntropy 2 0%nat = (Some (js "N1^:kyM0%;jx"), 26%nat)
  /\ 12 <= jsLength (js "N1^:kyM0%;jx") <= 16
  /\ passwordHasRequirements (js "N1^:kyM0%;jx") = true.
Proof.
  assert (generateSecurePassword lateEntropy 2 0%nat
          = (Some (js "N1^:kyM0%;jx"), 26%nat)) as Hrun
    by (vm_compute; reflexivity).
  split; [exact Hrun |].
  pose proof (generateSecurePassword_sound lateEntropy 2 0%nat _ _ Hrun) as H.
  split; apply H.
Defined.

Lemma passwordAttempt_zeroEntropy n :
  passwordAttempt zeroEntropy n = (js "aaaaaaaaaaaa", (13 + n)%nat).
Proof. reflexivity. Qed.

(** On the source that only delivers 0 every candidate is twelve times [a],
    which is rejected, so no depth of nested calls reaches a result. *)
Lemma generateSecurePassword_zeroEntropy depth n :
  fst (generateSecurePassword zeroEntropy depth n) = None.
Proof.
  revert n. induction depth as [| depth IH]; intros n; [done |].
  cbn [generateSecurePassword]. unfold bind.
  rewrite passwordAttempt_zeroEntropy.
  change (passwordHasRequirements (js "aaaaaaaaaaaa")) with false.
  cbn [negb]. apply IH.
Qed.

(** [generateSecurePassword] has no retry cap and no fallback: on the source
    [zeroEntropy] no number of nested calls produces a password. *)
Lemma generateSecurePassword_never_returns :
  ~ exists depth password n',
      generateSecurePassword zeroEntropy depth 0%nat = (Some password, n').
Proof.
  intros (depth & password & n' & Hrun).
  pose proof (generateSecurePassword_zeroEntropy depth 0%nat) as Hnone.
  by rewrite Hrun in Hnone.
Qed.

(** [C5] [generateSecurePassword] has no retry cap and no fallback; it is
    a plain accept/reject recursion with one nested call per rejected
    candidate.  With room for [depth] nested calls it returns exactly when
    one of the first [depth] candidates is accepted, and what it returns is
    the first accepted candidate, with the draws consumed up to it.  When
    the first [depth] candidates are all rejected it does not return, and on
    a source none of whose candidates is accepted it does not return
    whatever the depth. *)
Theorem generateSecurePassword_returns (entropy : nat -> Z) (n : nat) :
  (forall depth password n',
      generateSecurePassword entropy depth n = (Some password, n')
      <-> exists k,
            (k < depth)%nat
            /\ firstAccepted entropy n k
            /\ passwordAttempt entropy (attemptStart entropy k n)
               = (password, n'))
  /\ (forall depth,
        fst (generateSecurePassword entropy depth n) = None
        <-> forall k, (k < depth)%nat ->
                      passwordHasRequirements (candidate entropy n k) = false)
  /\ ((forall k, passwordHasRequirements (candidate entropy n k) = false) ->
      forall depth, fst (generateSecurePassword entropy depth n) = None).
Proof.
  assert (forall depth m,
             (forall password n',
                 generateSecurePassword entropy depth m = (Some password, n')
                 <-> exists k,
                       (k < depth)%nat
                       /\ firstAccepted entropy m k
                       /\ passwordAttempt entropy (attemptStart entropy k m)
                          = (password, n'))
             /\ (fst (generateSecurePassword entropy depth m) = None
                 <-> forall k, (k < depth)%nat ->
                               passwordHasRequirements (candidate entropy m k)
                               = false)) as Hcore.
  { induction depth as [| depth IH]; intros m.
    { split.
      - intros password n'. split; [done |]. intros (k & Hk & _). lia.
      - split; [intros _ k Hk; lia | done]. }
    cbn [generateSecurePassword]. unfold bind.
    destruct (passwordAttempt entropy m) as [first m1] eqn:Hfirst.
    assert (candidate entropy m 0 = first) as Hzero
      by (unfold candidate; cbn [attemptStart]; by rewrite Hfirst).
    assert (forall k, candidate entropy m (S k) = candidate entropy m1 k)
      as Hnext
      by (intros k; unfold candidate; cbn [attemptStart]; by rewrite Hfirst).
    assert (forall k, attemptStart entropy (S k) m = attemptStart entropy k m1)
      as Hstart by (intros k; cbn [attemptStart]; by rewrite Hfirst).
    destruct (passwordHasRequirements first) eqn:Hreq; cbn [negb].
    - (* the first candidate is accepted *)
      split.
      + intros password n'. split.
        * intros [= <- <-]. exists O. split; [lia |]. split.
          -- split; [by rewrite Hzero |]. intros j Hj. lia.
          -- done.
        * intros ([| k] & _ & [Hacc Hrej] & Hattempt).
          -- cbn [attemptStart] in Hattempt. rewrite Hfirst in Hattempt.
             by injection Hattempt as <- <-.
          -- specialize (Hrej O ltac:(lia)). rewrite Hzero in Hrej.
             congruence.
      + cbn [ret fst]. split; [done |]. intros Hrej.
        specialize (Hrej O ltac:(lia)). rewrite Hzero in Hrej. congruence.
    - (* the first candidate is rejected: one more nested call *)
      destruct (IH m1) as [Hsome Hnone]. split.
      + intros password n'. rewrite Hsome. split.
        * intros (k & Hk & [Hacc Hrej] & Hattempt). exists (S k).
          split; [lia |]. split.
          -- split; [by rewrite Hnext |].
             intros [| j] Hj; [by rewrite Hzero |].
             rewrite Hnext. apply Hrej. lia.
          -- by rewrite Hstart.
        * intros ([| k] & Hk & [Hacc Hrej] & Hattempt).
          -- rewrite Hzero in Hacc. congruence.
          -- exists k. split; [lia |]. split.
             ++ split; [by rewrite <- Hnext |].
                intros j Hj. rewrite <- Hnext. apply Hrej. lia.
             ++ by rewrite <- Hstart.
      + rewrite Hnone. split.
        * intros Hrej [| k] Hk; [by rewrite Hzero |].
          rewrite Hnext. apply Hrej. lia.
        * intros Hrej k Hk. rewrite <- Hnext. apply Hrej. lia. }
  split; [intros depth; apply Hcore |].
  split; [intros depth; apply Hcore |].
  intros Hrej depth. apply Hcore. auto.
Qed.

(** On [lateEntropy] the first candidate is rejected and the second is
    accepted: with room for two nested calls the second candidate is
    returned, with room for one the function does not return. *)
Lemma generateSecurePassword_returns_witness :
  generateSecurePassword lateEntropy 2 0%nat
  = (Some (js "N1^:kyM0%;jx"), 26%nat)
  /\ fst (generateSecurePassword lateEntropy 1 0%nat) = None.
Proof.
  destruct (generateSecurePassword_returns lateEntropy 0%nat)
    as (Hsome & Hnone & _).
  split.
  - apply Hsome. exists 1%nat. split; [lia |]. split.
    + split; [vm_compute; reflexivity |].
      intros j Hj. assert (j = O) as -> by lia. vm_compute. reflexivity.
    + vm_compute. reflexivity.
  - apply Hnone. intros k Hk. assert (k = O) as -> by lia.
    vm_compute. reflexivity.
Defined.

(** ** Strength evaluator *)

Lemma testClass_decide cls s :
  testClass cls s = bool_decide (containsA cls s).
Proof.
  unfold testClass, containsA.
  destruct (existsb cls s) eqn:Hex; symmetry.
  - apply bool_decide_eq_true, Exists_exists.
    apply existsb_exists in Hex as (c & Hin & Hc).
    exists c. split; [by apply list_elem_of_In | done].
  - apply bool_decide_eq_false. intros (c & Hin & Hc)%Exists_exists.
    assert (existsb cls s = true) as Hex'; [| congruence].
    apply existsb_exists. exists c. split; [by apply list_elem_of_In | done].
Qed.

Lemma geb_decide a b : (a >=? b) = bool_decide (b <= a).
Proof.
  rewrite Z.geb_leb.
  destruct (Z.leb_spec b a); symmetry;
    [apply bool_decide_eq_true | apply bool_decide_eq_false]; lia.
Qed.

(** The size of the [Set] built from a text is its number of distinct
    characters. *)
Lemma size_Set_codePoints password :
  Z.of_nat (size (list_to_set (codePoints password) : gset jsstring))
  = distinctCharacterCount password.
Proof.
  unfold distinctCharacterCount. f_equal.
  rewrite <- (size_list_to_set (C := gset jsstring))
    by apply NoDup_remove_dups.
  f_equal. apply set_eq. intros x.
  by rewrite !elem_of_list_to_set, elem_of_remove_dups.
Qed.

Lemma evaluateStrength_score password :
  evaluateStrength password
  = if signalScore password <=? 3 then weak
    else if signalScore password <=? 5 then medium
    else strong.
Proof.
  unfold evaluateStrength, signalScore, strengthSignals.
  rewrite size_Set_codePoints, !geb_decide, !testClass_decide.
  cbn [foldr].
  repeat match goal with
         | |- context [bool_decide ?P] => destruct (bool_decide P)
         end; reflexivity.
Qed.

(** [C6] [evaluateStrength] adds one point for each of the seven signals
    (at least 12 code units, at least 14, an uppercase letter, a lowercase
    letter, a digit, a non-word character, at least [length - 2] distinct
    characters) and maps the total [s] to weak exactly when [s <= 3], to
    medium exactly when [4 <= s <= 5] and to strong exactly when [6 <= s]. *)
Theorem evaluateStrength_additive (password : jsstring) :
  length (strengthSignals password) = 7%nat
  /\ 0 <= signalScore password <= 7
  /\ (evaluateStrength password = weak <-> signalScore password <= 3)
  /\ (evaluateStrength password = medium <-> 4 <= signalScore password <= 5)
  /\ (evaluateStrength password = strong <-> 6 <= signalScore password).
Proof.
  split; [reflexivity |]. split.
  { unfold signalScore, strengthSignals. cbn [foldr].
    repeat match goal with
           | |- context [bool_decide ?P] => destruct (bool_decide P)
           end; cbn [Z.b2z]; lia. }
  rewrite evaluateStrength_score.
  destruct (Z.leb_spec (signalScore password) 3);
    [| destruct (Z.leb_spec (signalScore password) 5)];
    repeat split; intros; try lia; try done.
Qed.

(** [C7] A text of at least 12 code units that holds an uppercase letter, a
    lowercase letter, a digit and a code unit outside [A-Za-z0-9] is rated
    medium or strong, and the rating is a function of the text alone. *)
Theorem evaluateStrength_floor (s : jsstring) :
  12 <= jsLength s ->
  (exists c, c ∈ s /\ isUpper c = true) ->
  (exists c, c ∈ s /\ isLower c = true) ->
  (exists c, c ∈ s /\ isDigit c = true) ->
  (exists c, c ∈ s /\ isAlnum c = false) ->
  (evaluateStrength s = medium \/ evaluateStrength s = strong)
  /\ (forall s', s' = s -> evaluateStrength s' = evaluateStrength s).
Proof.
  intros Hlen Hup Hlow Hdig _. split; [| by intros s' ->].
  assert (4 <= signalScore s) as Hscore.
  { unfold signalScore, strengthSignals. cbn [foldr].
    rewrite (bool_decide_eq_true_2 (12 <= jsLength s)) by done.
    rewrite <- !testClass_decide.
    rewrite (proj2 (testClass_elem isUpper s) Hup).
    rewrite (proj2 (testClass_elem isLower s) Hlow).
    rewrite (proj2 (testClass_elem isDigit s) Hdig).
    repeat match goal with
           | |- context [bool_decide ?P] => destruct (bool_decide P)
           | |- context [testClass ?c ?t] => destruct (testClass c t)
           end; cbn [Z.b2z]; lia. }
  rewrite evaluateStrength_score.
  destruct (Z.leb_spec (signalScore s) 3); [lia |].
  destruct (Z.leb_spec (signalScore s) 5); auto.
Qed.

Lemma evaluateStrength_floor_witness :
  12 <= jsLength (js "Abcdefgh_1234")
  /\ (evaluateStrength (js "Abcdefgh_1234") = medium
      \/ evaluateStrength (js "Abcdefgh_1234") = strong).
Proof.
  split; [vm_compute; discriminate |].
  apply (evaluateStrength_floor (js "Abcdefgh_1234")).
  - vm_compute. discriminate.
  - exists 65. split; [| reflexivity]. apply list_elem_of_In.
    vm_compute. tauto.
  - exists 98. split; [| reflexivity]. apply list_elem_of_In.
    vm_compute. tauto.
  - exists 49. split; [| reflexivity]. apply list_elem_of_In.
    vm_compute. tauto.
  - exists 95. split; [| reflexivity]. apply list_elem_of_In.
    vm_compute. tauto.
Defined.

(** ** OTP extractor *)

Lemma isDigit_isWord c : isDigit c = true -> isWord c = true.
Proof.
  unfold isWord, isAlnum. intros ->. by rewrite !orb_true_r.
Qed.

Lemma digitAt_wordAt c : wordAt c = false -> digitAt c = false.
Proof.
  destruct c as [c |]; [| done]. cbn. intros Hw.
  destruct (isDigit c) eqn:Hd; [| done].
  apply isDigit_isWord in Hd. congruence.
Qed.

Lemma forallb_Forall_digit m :
  forallb isDigit m = true <-> Forall (fun c => isDigit c = true) m.
Proof.
  rewrite forallb_forall, Forall_forall.
  split; intros Hall c Hc; apply Hall; by apply list_elem_of_In.
Qed.

(** What one alternative of the pattern accepts at a position. *)
Lemma matchBoundedDigits_spec n prev rest m :
  (0 < n)%nat ->
  matchBoundedDigits n prev rest = Some m
  <-> exists post,
        rest = m ++ post /\ length m = n
        /\ Forall (fun c => isDigit c = true) m
        /\ wordAt prev = false /\ wordAt (head post) = false.
Proof.
  intros Hn. unfold matchBoundedDigits. split.
  - destruct (boundary prev (head rest)) eqn:Hb1; [| done].
    destruct (Nat.eqb_spec (length (take n rest)) n) as [Hlen | ]; [| done].
    destruct (forallb isDigit (take n rest)) eqn:Hdig; [| done].
    destruct (boundary (last (take n rest)) (head (drop n rest))) eqn:Hb2;
      [| done].
    cbn [andb]. intros [= <-].
    apply forallb_Forall_digit in Hdig.
    exists (drop n rest). rewrite take_drop.
    split; [done |]. split; [done |]. split; [done |].
    destruct (take n rest) as [| d m'] eqn:Htake using rev_ind;
      [cbn in Hlen; lia |].
    clear IHm'. rewrite last_snoc in Hb2.
    pose proof (proj1 (Forall_app _ _ _) Hdig) as [Hm' Hd].
    rewrite Forall_singleton in Hd. pose proof (isDigit_isWord _ Hd) as Hw.
    unfold boundary in Hb2. cbn [wordAt] in Hb2. rewrite Hw in Hb2.
    split; [| by destruct (wordAt (head (drop n rest)))].
    assert (exists d0, head rest = Some d0 /\ isDigit d0 = true)
      as (d0 & Hhd & Hd0).
    { rewrite <- (take_drop n rest), Htake.
      destruct m' as [| d0 m'']; cbn.
      - by exists d.
      - exists d0. split; [done |]. by inversion Hm'. }
    unfold boundary in Hb1. rewrite Hhd in Hb1. cbn [wordAt] in Hb1.
    rewrite (isDigit_isWord _ Hd0) in Hb1. by destruct (wordAt prev).
  - intros (post & -> & Hlen & Hdig & Hprev & Hpost). subst n.
    rewrite take_app_length, drop_app_length, Nat.eqb_refl.
    rewrite (proj2 (forallb_Forall_digit m) Hdig).
    destruct m as [| d0 m'] using rev_ind; [cbn in Hn; lia |]. clear IHm'.
    rewrite last_snoc.
    pose proof (proj1 (Forall_app _ _ _) Hdig) as [Hm' Hd].
    rewrite Forall_singleton in Hd. apply isDigit_isWord in Hd.
    assert (wordAt (head ((m' ++ [d0]) ++ post)) = true) as Hhd.
    { destruct m' as [| d1 m'']; cbn; [done |].
      apply isDigit_isWord. by inversion Hm'. }
    unfold boundary. rewrite Hhd, Hprev, Hpost. cbn [wordAt]. by rewrite Hd.
Qed.

(** Two digit runs that start at the same place and both end at a word
    boundary are the same run. *)
Lemma bounded_run_unique m1 post1 m2 post2 :
  m1 ++ post1 = m2 ++ post2 ->
  Forall (fun c => isDigit c = true) m1 ->
  Forall (fun c => isDigit c = true) m2 ->
  wordAt (head post1) = false ->
  wordAt (head post2) = false ->
  m1 = m2.
Proof.
  intros Heq Hd1 Hd2 Hp1 Hp2.
  apply app_eq_inv in Heq as [(k & -> & ->) | (k & -> & ->)];
    destruct k as [| c k']; rewrite ?app_nil_r; try done; exfalso.
  - apply Forall_app in Hd1 as [_ Hk]. inversion Hk as [| ? ? Hc _]; subst.
    cbn in Hp2. apply isDigit_isWord in Hc. congruence.
  - apply Forall_app in Hd2 as [_ Hk]. inversion Hk as [| ? ? Hc _]; subst.
    cbn in Hp1. apply isDigit_isWord in Hc. congruence.
Qed.

(** What the three alternatives accept at a position. *)
Lemma matchHere_spec pre rest m :
  matchHere (last pre) rest = Some m
  <-> exists post, rest = m ++ post /\ standalone pre m post.
Proof.
  unfold standalone. split.
  - unfold matchHere. intros Hm.
    destruct (matchBoundedDigits 4 (last pre) rest) as [m4 |] eqn:H4;
      [| destruct (matchBoundedDigits 6 (last pre) rest) as [m6 |] eqn:H6].
    + injection Hm as ->.
      apply matchBoundedDigits_spec in H4 as (post & ? & ? & ? & ? & ?);
        [| lia]. exists post. auto 10.
    + injection Hm as ->.
      apply matchBoundedDigits_spec in H6 as (post & ? & ? & ? & ? & ?);
        [| lia]. exists post. auto 10.
    + apply matchBoundedDigits_spec in Hm as (post & ? & ? & ? & ? & ?);
        [| lia]. exists post. auto 10.
  - intros (post & Hrest & Hlen & Hdig & Hpre & Hpost).
    assert (matchBoundedDigits (length m) (last pre) rest = Some m) as Hself.
    { apply matchBoundedDigits_spec; [lia |]. exists post. auto. }
    assert (forall n m',
              (0 < n)%nat ->
              matchBoundedDigits n (last pre) rest = Some m' -> m' = m)
      as Hsame.
    { intros n m' Hn (post' & Hrest' & _ & Hdig' & _ & Hpost')
        %matchBoundedDigits_spec; [| done].
      apply (bounded_run_unique m' post' m post); [congruence | done ..]. }
    unfold matchHere.
    destruct (matchBoundedDigits 4 (last pre) rest) as [m4 |] eqn:H4.
    { f_equal. apply (Hsame 4%nat); [lia | done]. }
    destruct (matchBoundedDigits 6 (last pre) rest) as [m6 |] eqn:H6.
    { f_equal. apply (Hsame 6%nat); [lia | done]. }
    destruct Hlen as [Hl | [Hl | Hl]]; rewrite Hl in Hself; congruence.
Qed.

(** The scan returns the leftmost standalone run of the text that is still
    to be read, [pre] being the part already passed. *)
Lemma searchFrom_spec rest pre :
  match searchFrom (last pre) rest with
  | Some m =>
      exists skipped post,
        rest = skipped ++ m ++ post
        /\ standalone (pre ++ skipped) m post
        /\ forall skipped' m' post',
             rest = skipped' ++ m' ++ post' ->
             standalone (pre ++ skipped') m' post' ->
             (length skipped <= length skipped')%nat
  | None =>
      forall skipped' m' post',
        rest = skipped' ++ m' ++ post' ->
        ~ standalone (pre ++ skipped') m' post'
  end.
Proof.
  revert pre. induction rest as [| c rest IH]; intros pre.
  - cbn [searchFrom].
    destruct (matchHere (last pre) []) as [m |] eqn:Hm.
    + apply matchHere_spec in Hm as (post & Hrest & Hst).
      exists [], post. rewrite app_nil_r. cbn [app].
      split; [done |]. split; [done |]. intros; cbn; lia.
    + intros skipped' m' post' Hrest Hst.
      symmetry in Hrest. apply app_eq_nil in Hrest as [-> Hrest].
      apply app_eq_nil in Hrest as [-> ->].
      destruct Hst as [Hlen _]. cbn in Hlen. lia.
  - cbn [searchFrom].
    destruct (matchHere (last pre) (c :: rest)) as [m |] eqn:Hm.
    + apply matchHere_spec in Hm as (post & Hrest & Hst).
      exists [], post. rewrite app_nil_r. cbn [app].
      split; [done |]. split; [done |]. intros; cbn; lia.
    + assert (forall m' post',
                c :: rest = m' ++ post' -> ~ standalone pre m' post')
        as Hnot_here.
      { intros m' post' Hrest Hst.
        assert (matchHere (last pre) (c :: rest) = Some m') as Hyes
          by (apply matchHere_spec; eauto).
        congruence. }
      specialize (IH (pre ++ [c])). rewrite last_snoc in IH.
      destruct (searchFrom (Some c) rest) as [m |].
      * destruct IH as (skipped & post & Hrest & Hst & Hleft).
        exists (c :: skipped), post. rewrite <- app_assoc in Hst.
        split; [by rewrite Hrest |]. split; [done |].
        intros [| c' skipped'] m' post' Hrest' Hst'.
        { exfalso. rewrite app_nil_r in Hst'.
          exact (Hnot_here m' post' Hrest' Hst'). }
        injection Hrest' as <- Hrest'. cbn [Datatypes.length].
        apply le_n_S, (Hleft skipped' m' post'); [done |].
        by rewrite <- app_assoc.
      * intros [| c' skipped'] m' post' Hrest' Hst'.
        { rewrite app_nil_r in Hst'.
          exact (Hnot_here m' post' Hrest' Hst'). }
        injection Hrest' as <- Hrest'.
        apply (IH skipped' m' post'); [done |]. by rewrite <- app_assoc.
Qed.

Lemma extractOtp_spec text :
  match extractOtp text with
  | Some m =>
      exists pre post,
        text = pre ++ m ++ post
        /\ standalone pre m post
        /\ forall pre' m' post',
             text = pre' ++ m' ++ post' ->
             standalone pre' m' post' ->
             (length pre <= length pre')%nat
  | None =>
      forall pre' m' post',
        text = pre' ++ m' ++ post' -> ~ standalone pre' m' post'
  end.
Proof. exact (searchFrom_spec text []). Qed.

(** What [extractOtp] returns is a text of 4, 6 or 8 decimal digits. *)
Lemma extractOtp_digits text m :
  extractOtp text = Some m ->
  (length m = 4 \/ length m = 6 \/ length m = 8)%nat
  /\ Forall (fun c => isDigit c = true) m.
Proof.
  intros Hm. pose proof (extractOtp_spec text) as Hspec. rewrite Hm in Hspec.
  destruct Hspec as (pre & post & _ & (Hlen & Hdig & _) & _). done.
Qed.

(** [C8] [extractOtp] returns the leftmost standalone run of exactly 4, 6 or
    8 decimal digits, a run being standalone when there is a word boundary
    on both of its sides, and returns nothing when the text has no such run.
    A standalone run has no digit next to it, so the result is never a part
    of a longer run of digits.  The two examples of the specification
    evaluate as it says. *)
Theorem extractOtp_leftmost_standalone (text : jsstring) :
  (forall m,
      extractOtp text = Some m
      <-> exists pre post,
            text = pre ++ m ++ post
            /\ standalone pre m post
            /\ forall pre' m' post',
                 text = pre' ++ m' ++ post' ->
                 standalone pre' m' post' ->
                 (length pre <= length pre')%nat)
  /\ (extractOtp text = None
      <-> ~ exists pre m post, text = pre ++ m ++ post /\ standalone pre m post)
  /\ (forall pre m post,
        text = pre ++ m ++ post ->
        standalone pre m post ->
        digitAt (last pre) = false /\ digitAt (head post) = false)
  /\ extractOtp (js "Your code is 482913 today") = Some (js "482913")
  /\ extractOtp (js "order #12345678901 shipped") = None.
Proof.
  pose proof (extractOtp_spec text) as Hspec.
  split; [| split; [| split; [| split; reflexivity]]].
  - intros m. split.
    + intros Hm. by rewrite Hm in Hspec.
    + intros (pre & post & Htext & Hst & Hleft).
      destruct (extractOtp text) as [m0 |].
      * destruct Hspec as (pre0 & post0 & Htext0 & Hst0 & Hleft0).
        pose proof (Hleft _ _ _ Htext0 Hst0).
        pose proof (Hleft0 _ _ _ Htext Hst).
        assert (pre = pre0 /\ m ++ post = m0 ++ post0) as [-> Hrun].
        { apply app_inj_1; [lia | congruence]. }
        f_equal. symmetry.
        destruct Hst as (_ & ? & _ & ?), Hst0 as (_ & ? & _ & ?).
        by eapply bounded_run_unique.
      * exfalso. by eapply Hspec.
  - split.
    + intros Hnone (pre & m & post & Htext & Hst).
      rewrite Hnone in Hspec. by eapply Hspec.
    + intros Hno. destruct (extractOtp text) as [m |]; [| done].
      destruct Hspec as (pre & post & Htext & Hst & _).
      exfalso. apply Hno. eauto.
  - intros pre m post _ (_ & _ & Hpre & Hpost).
    split; by apply digitAt_wordAt.
Qed.

Example extractOtp_after_letters : extractOtp (js "abc1234") = None.
Proof. reflexivity. Qed.

(** ** Message synthesizer *)

Lemma appendDigits_spec entropy k otp n :
  exists digits,
    fst (appendDigits entropy k otp n) = otp ++ digits
    /\ length digits = k
    /\ Forall (fun c => isDigit c = true) digits.
Proof.
  revert otp n. induction k as [| k IH]; intros otp n; cbn [appendDigits].
  - exists []. by rewrite app_nil_r.
  - unfold bind.
    pose proof (randomInt_range entropy 0 9 n ltac:(lia)) as Hd.
    destruct (randomInt entropy 0 9 n) as [d n1]. cbn [fst] in Hd.
    destruct (IH (otp ++ digitToString d) n1) as (digits & Heq & Hlen & Hdig).
    exists (digitToString d ++ digits). rewrite Heq, <- app_assoc.
    split; [done |]. split; [by rewrite <- Hlen |].
    apply Forall_app. split; [| done]. apply Forall_singleton.
    unfold isDigit, inRange. apply andb_true_intro. split; apply Z.leb_le; lia.
Qed.

Lemma messageTemplates_filled :
  Forall (fun t => subjects t <> [] /\ bodies t <> []) messageTemplates.
Proof. refine (bool_decide_unpack _ _). by vm_compute. Qed.

(** [C10] The [otp] field of a record made by [createMessageRecord] is never
    null.  It is the code that [extractOtp] finds in the rendered body or,
    when it finds none, the digit string that was generated, and in both
    cases a text of exactly 4, 6 or 8 decimal digits. *)
Theorem createMessageRecord_otp (entropy : nat -> Z) (uuid : jsstring)
    (now : Z) (n : nat) :
  exists template bodyTemplate otpLength generated code,
    template ∈ messageTemplates
    /\ bodyTemplate ∈ bodies template
    /\ otpLength ∈ OTP_LENGTHS
    /\ length generated = Z.to_nat otpLength
    /\ Forall (fun c => isDigit c = true) generated
    /\ MessageRecord.body (synthesized entropy uuid now n)
       = replaceAll CODE generated bodyTemplate
    /\ MessageRecord.otp (synthesized entropy uuid now n) = Some code
    /\ code
       = default generated
           (extractOtp (MessageRecord.body (synthesized entropy uuid now n)))
    /\ (length code = 4 \/ length code = 6 \/ length code = 8)%nat
    /\ Forall (fun c => isDigit c = true) code.
Proof.
  unfold synthesized, createMessageRecord, bind.
  destruct (randomInt_index entropy messageTemplates n) as [template Ht];
    [done |].
  destruct (randomInt entropy 0 _ n) as [t n1]. cbn [fst] in Ht.
  rewrite Ht. cbn [from_option id].
  apply list_elem_of_lookup_2 in Ht.
  pose proof (proj1 (Forall_forall _ _) messageTemplates_filled _ Ht)
    as [Hsubj Hbod].
  destruct (randomInt_index entropy OTP_LENGTHS n1) as [otpLength Hl];
    [done |].
  destruct (randomInt entropy 0 _ n1) as [l n2]. cbn [fst] in Hl.
  rewrite Hl. cbn [from_option id].
  apply list_elem_of_lookup_2 in Hl.
  destruct (appendDigits_spec entropy (Z.to_nat otpLength) [] n2)
    as (generated & Hgen & Hlen & Hdig).
  destruct (appendDigits entropy (Z.to_nat otpLength) [] n2) as [otp n3].
  cbn [fst app] in Hgen. subst otp.
  destruct (randomInt entropy 0 _ n3) as [s n4].
  destruct (randomInt_index entropy (bodies template) n4) as [bodyTemplate Hb];
    [done |].
  destruct (randomInt entropy 0 _ n4) as [b n5]. cbn [fst] in Hb.
  rewrite Hb. cbn [from_option id ret fst MessageRecord.body MessageRecord.otp].
  apply list_elem_of_lookup_2 in Hb.
  exists template, bodyTemplate, otpLength, generated.
  eexists. do 6 (split; [done |]). do 2 (split; [reflexivity |]).
  destruct (extractOtp (replaceAll CODE generated bodyTemplate)) as [m |] eqn:Hm;
    cbn [from_option id].
  - by apply extractOtp_digits in Hm.
  - split; [| done]. rewrite Hlen.
    unfold OTP_LENGTHS in Hl.
    repeat (apply elem_of_cons in Hl as [-> | Hl]; [cbn; lia |]).
    by apply elem_of_nil in Hl.
Qed.

(** ** Bounded record store *)

Section StoreFacts.

Context {T : Type} `{Stored T}.

(** *** The fallback array *)

Lemma insertDesc_Permutation a l : insertDesc a l ≡ₚ a :: l.
Proof.
  induction l as [| b l IH]; cbn [insertDesc]; [done |].
  destruct (_ >? 0); [| done]. rewrite IH. apply Permutation_swap.
Qed.

Lemma sortDesc_Permutation l : sortDesc l ≡ₚ l.
Proof.
  induction l as [| a l IH]; [done |]. unfold sortDesc in *. cbn [foldr].
  by rewrite insertDesc_Permutation, IH.
Qed.

Lemma insertDesc_descending a l :
  descendingTimestamps l -> descendingTimestamps (insertDesc a l).
Proof.
  unfold descendingTimestamps.
  induction 1 as [| b l Hl IH Hb]; cbn [insertDesc].
  - by repeat constructor.
  - destruct (Z.gtb_spec (recordTimestamp b - recordTimestamp a) 0)
      as [Hgt | Hle].
    + constructor; [done |].
      rewrite insertDesc_Permutation. constructor; [| done].
      unfold notOlder. lia.
    + constructor; [by constructor |].
      constructor; [unfold notOlder; lia |].
      eapply Forall_impl; [exact Hb |]. unfold notOlder. intros; cbn in *. lia.
Qed.

Lemma sortDesc_descending l : descendingTimestamps (sortDesc l).
Proof.
  induction l as [| a l IH]; [constructor |].
  by apply insertDesc_descending.
Qed.

Lemma drop_descending n l :
  descendingTimestamps l -> descendingTimestamps (drop n l).
Proof.
  unfold descendingTimestamps. revert l.
  induction n as [| n IH]; intros l Hl; [by rewrite drop_0 |].
  destruct Hl; [constructor | by apply IH].
Qed.

(** A record newer than all others is first after the sort. *)
Lemma sortDesc_newest_first l r :
  Forall (fun x => recordTimestamp x < recordTimestamp r) l ->
  exists rest, sortDesc (l ++ [r]) = r :: rest.
Proof.
  unfold sortDesc. rewrite foldr_app. cbn [foldr insertDesc].
  induction 1 as [| a l Ha _ [rest IH]]; cbn [foldr]; [by exists [] |].
  rewrite IH. cbn [insertDesc].
  destruct (Z.gtb_spec (recordTimestamp r - recordTimestamp a) 0); [| lia].
  by eexists.
Qed.

End StoreFacts.

Section CursorFacts.

Context {T : Type} `{Stored T}.

(** *** The order of the index *)

Lemma entry_irrefl (e : Z * jsstring) : ~ lexico e e.
Proof. exact (irreflexivity lexico e). Qed.

Lemma entry_asym (e1 e2 : Z * jsstring) : lexico e1 e2 -> ~ lexico e2 e1.
Proof. intros H12 H21. apply (entry_irrefl e1). by etrans. Qed.

Lemma visitedBefore_alt a b :
  visitedBefore a b
  <-> indexEntry a = indexEntry b \/ lexico (indexEntry b) (indexEntry a).
Proof.
  unfold visitedBefore.
  destruct (trichotomy lexico (indexEntry a) (indexEntry b))
    as [Hlt | [Heq | Hgt]].
  - split; [done |]. intros [Heq | Hgt].
    + rewrite Heq in Hlt. by apply entry_irrefl in Hlt.
    + by apply entry_asym in Hgt.
  - split; [auto |]. intros _. rewrite Heq. apply entry_irrefl.
  - split; [auto |]. intros _. by apply entry_asym.
Qed.

Global Instance visitedBefore_total : Total visitedBefore.
Proof.
  intros a b. rewrite !visitedBefore_alt.
  destruct (trichotomy lexico (indexEntry a) (indexEntry b))
    as [? | [? | ?]]; auto.
Qed.

Global Instance visitedBefore_trans : Transitive visitedBefore.
Proof.
  intros a b c. rewrite !visitedBefore_alt.
  intros [-> | Hba] [<- | Hcb]; auto. right. by etrans.
Qed.

Lemma visitedBefore_notOlder a b : visitedBefore a b -> notOlder a b.
Proof.
  unfold visitedBefore, notOlder, indexEntry. intros Hnot.
  destruct (Z.le_gt_cases (recordTimestamp b) (recordTimestamp a));
    [done |].
  destruct Hnot. by left.
Qed.

(** A strictly older record is not visited first. *)
Lemma older_not_visitedBefore a b :
  recordTimestamp a < recordTimestamp b -> ~ visitedBefore a b.
Proof. intros Hlt Hv. apply visitedBefore_notOlder in Hv. unfold notOlder in Hv. lia. Qed.

(** *** The cursor *)

Lemma openCursorPrev_sorted (os : gmap jsstring T) :
  StronglySorted visitedBefore (openCursorPrev os).
Proof. apply StronglySorted_merge_sort; apply _. Qed.

Lemma openCursorPrev_Permutation (os : gmap jsstring T) :
  openCursorPrev os ≡ₚ snd <$> map_to_list os.
Proof. apply merge_sort_Permutation. Qed.

Lemma elem_of_openCursorPrev (os : gmap jsstring T) x :
  x ∈ openCursorPrev os <-> exists k, os !! k = Some x.
Proof.
  rewrite openCursorPrev_Permutation, list_elem_of_fmap. split.
  - intros ([k y] & -> & Hin). exists k. by apply elem_of_map_to_list.
  - intros [k Hk]. exists (k, x). split; [done |].
    by apply elem_of_map_to_list.
Qed.

Lemma StronglySorted_weaken {A} (R1 R2 : relation A) l :
  (forall a b, R1 a b -> R2 a b) ->
  StronglySorted R1 l -> StronglySorted R2 l.
Proof.
  intros Himpl. induction 1 as [| a l _ IH Ha]; constructor; [done |].
  eapply Forall_impl; [exact Ha | auto].
Qed.

Lemma openCursorPrev_descending (os : gmap jsstring T) :
  descendingTimestamps (openCursorPrev os).
Proof.
  eapply StronglySorted_weaken; [| apply openCursorPrev_sorted].
  apply visitedBefore_notOlder.
Qed.

(** A record that is strictly newer than every other record of the object
    store is the first the cursor visits. *)
Lemma openCursorPrev_head (os : gmap jsstring T) r :
  (exists k, os !! k = Some r) ->
  (forall k x, os !! k = Some x ->
               x = r \/ recordTimestamp x < recordTimestamp r) ->
  exists rest, openCursorPrev os = r :: rest.
Proof.
  intros Hr Hnewest. apply elem_of_openCursorPrev in Hr.
  pose proof (openCursorPrev_sorted os) as Hsorted.
  destruct (openCursorPrev os) as [| h rest] eqn:Hcursor.
  { by apply elem_of_nil in Hr. }
  exists rest. f_equal.
  assert (h ∈ openCursorPrev os) as Hh by (rewrite Hcursor; left).
  apply elem_of_openCursorPrev in Hh as [k Hk].
  destruct (Hnewest k h Hk) as [-> | Hold]; [done |].
  apply elem_of_cons in Hr as [-> | Hin]; [done |].
  apply StronglySorted_inv in Hsorted as [_ Hall].
  pose proof (proj1 (Forall_forall _ _) Hall r Hin) as Hv.
  by apply older_not_visitedBefore in Hv.
Qed.

(** *** Trimming *)

(** What the trimming handler leaves in the object store: it deletes the
    records the cursor visits after the first [STORE_LIMIT] ones. *)
Lemma trimCursor_lookup (cursor : list T) (count : nat)
    (os : gmap jsstring T) (k : jsstring) :
  trimCursor count cursor os !! k
  = if decide (k ∈ recordId <$> drop (STORE_LIMIT - count)%nat cursor)
    then None else os !! k.
Proof.
  revert count os.
  induction cursor as [| r cursor IH]; intros count os; cbn [trimCursor].
  - rewrite drop_nil. cbn. by rewrite decide_False by apply not_elem_of_nil.
  - rewrite IH.
    destruct (Nat.ltb_spec STORE_LIMIT (S count)) as [Hover | Hwithin].
    + replace (STORE_LIMIT - S count)%nat with O by lia.
      replace (STORE_LIMIT - count)%nat with O by lia.
      rewrite !drop_0, fmap_cons.
      destruct (decide (k = recordId r)) as [-> | Hne].
      * rewrite lookup_delete_eq.
        rewrite (decide_True (P := _ ∈ _ :: _)) by left.
        by destruct (decide _).
      * rewrite lookup_delete_ne by done.
        destruct (decide (k ∈ recordId <$> cursor)) as [Hin | Hnin].
        -- by rewrite decide_True by (by right).
        -- rewrite decide_False; [done |].
           intros [? | ?]%elem_of_cons; done.
    + replace (STORE_LIMIT - count)%nat with (S (STORE_LIMIT - S count))
        by lia.
      done.
Qed.

End CursorFacts.

Section LoadFacts.

Context {T : Type} `{Stored T}.
Lemma trimStore_inMemory_descending hasIndexedDB (st : Store T) :
  descendingTimestamps (inMemory st) ->
  descendingTimestamps (inMemory (trimStore hasIndexedDB st)).
Proof.
  intros Hst. unfold trimStore.
  destruct hasIndexedDB; cbn [negb]; [done |].
  destruct (_ <? _)%nat; [| done]. by apply drop_descending.
Qed.

(** The fallback array is kept in descending order of timestamp. *)
Lemma persist_inMemory_descending hasIndexedDB record (st : Store T) :
  descendingTimestamps (inMemory st) ->
  descendingTimestamps (inMemory (persist hasIndexedDB record st)).
Proof.
  intros Hst. unfold persist.
  destruct hasIndexedDB; cbn [negb];
    apply trimStore_inMemory_descending; [done |].
  apply sortDesc_descending.
Qed.

Lemma persistAll_inMemory_descending hasIndexedDB records (st : Store T) :
  descendingTimestamps (inMemory st) ->
  descendingTimestamps (inMemory (persistAll hasIndexedDB records st)).
Proof.
  revert st. induction records as [| r records IH]; intros st Hst; [done |].
  cbn [persistAll foldl]. apply IH. by apply persist_inMemory_descending.
Qed.

Lemma fetchRecords_descending hasIndexedDB (st : Store T) :
  descendingTimestamps (inMemory st) ->
  descendingTimestamps (fetchRecords hasIndexedDB st).
Proof.
  intros Hst. unfold fetchRecords. destruct hasIndexedDB; cbn [negb].
  - apply openCursorPrev_descending.
  - done.
Qed.

Lemma fetchRecords_stored hasIndexedDB (st : Store T) :
  fetchRecords hasIndexedDB st ≡ₚ storedRecords hasIndexedDB st.
Proof.
  unfold fetchRecords, storedRecords. destruct hasIndexedDB; cbn [negb].
  - apply openCursorPrev_Permutation.
  - done.
Qed.

Lemma fetchRecords_empty hasIndexedDB :
  fetchRecords hasIndexedDB (@emptyStore T) = [].
Proof.
  unfold fetchRecords, emptyStore, openCursorPrev.
  destruct hasIndexedDB; cbn [negb inMemory objectStore]; [| done].
  by rewrite map_to_list_empty.
Qed.

End LoadFacts.

Section PutFacts.

Context {T : Type} `{Stored T}.

(** *** The key path *)

Lemma keyedById_insert (os : gmap jsstring T) r :
  keyedById os -> keyedById (<[recordId r := r]> os).
Proof.
  intros Hos k x. rewrite lookup_insert.
  destruct (decide (recordId r = k)) as [<- | _]; [by intros [= <-] |].
  apply Hos.
Qed.

Lemma keyedById_trimCursor (cursor : list T) (count : nat)
    (os : gmap jsstring T) :
  keyedById os -> keyedById (trimCursor count cursor os).
Proof.
  intros Hos k x. rewrite trimCursor_lookup.
  destruct (decide _); [done | apply Hos].
Qed.

(** Under the key path no two records the cursor visits share an id. *)
Lemma openCursorPrev_NoDup_ids (os : gmap jsstring T) :
  keyedById os -> NoDup (recordId <$> openCursorPrev os).
Proof.
  intros Hos. rewrite openCursorPrev_Permutation.
  replace (recordId <$> (snd <$> map_to_list os))
    with (fst <$> map_to_list os); [apply NoDup_fst_map_to_list |].
  rewrite <- list_fmap_compose. apply list_fmap_ext.
  intros i [k x] Hix. cbn. symmetry. apply Hos.
  apply elem_of_map_to_list. by eapply list_elem_of_lookup_2.
Qed.

Lemma openCursorPrev_lookup (os : gmap jsstring T) x :
  keyedById os ->
  x ∈ openCursorPrev os <-> os !! recordId x = Some x.
Proof.
  intros Hos. rewrite elem_of_openCursorPrev. split; [| eauto].
  intros [k Hk]. by rewrite (Hos k x Hk).
Qed.

(** *** A put with IndexedDB *)

(** After a put the cursor visits the [STORE_LIMIT] records that it
    visited first before the trim, the new record included: the most
    recent ones by timestamp. *)
Lemma persist_indexedDB_keeps_most_recent record (st : Store T) :
  keyedById (objectStore st) ->
  fetchRecords true (persist true record st)
  = take STORE_LIMIT
      (openCursorPrev (<[recordId record := record]> (objectStore st))).
Proof.
  intros Hkeyed. unfold fetchRecords, persist, trimStore.
  cbn [negb objectStore].
  set (os' := <[recordId record := record]> (objectStore st)).
  assert (keyedById os') as Hos' by by apply keyedById_insert.
  set (cursor := openCursorPrev os').
  set (os'' := trimCursor 0 cursor os').
  assert (keyedById os'') as Hos'' by by apply keyedById_trimCursor.
  pose proof (openCursorPrev_NoDup_ids os' Hos') as Hids.
  fold cursor in Hids.
  rewrite <- (take_drop STORE_LIMIT cursor), fmap_app in Hids.
  apply NoDup_app in Hids as (Htake & Hdisjoint & _).
  assert (forall x, x ∈ openCursorPrev os'' <-> x ∈ take STORE_LIMIT cursor)
    as Hsame.
  { intros x. rewrite (openCursorPrev_lookup os'' x Hos'').
    unfold os''. rewrite trimCursor_lookup.
    replace (STORE_LIMIT - 0)%nat with STORE_LIMIT by done.
    destruct (decide _) as [Hdel | Hkeep].
    - split; [done |]. intros Hx. destruct (Hdisjoint (recordId x)); [| done].
      apply list_elem_of_fmap. eauto.
    - rewrite <- (openCursorPrev_lookup os' x Hos'). fold cursor.
      rewrite <- (take_drop STORE_LIMIT cursor) at 1.
      rewrite elem_of_app. split; [| auto].
      intros [Hx | Hx]; [done |]. destruct Hkeep.
      apply list_elem_of_fmap. eauto. }
  apply (StronglySorted_unique_strong visitedBefore).
  - intros x1 x2 Hx1 Hx2 H12 H21.
    apply Hsame, subseteq_take in Hx1. apply subseteq_take in Hx2.
    apply (openCursorPrev_lookup os' _ Hos') in Hx1, Hx2.
    apply visitedBefore_alt in H12 as [Heq | Hlt].
    + assert (recordId x1 = recordId x2) as Hid by by injection Heq.
      rewrite Hid in Hx1. congruence.
    + by destruct H21.
  - apply openCursorPrev_sorted.
  - pose proof (openCursorPrev_sorted os') as Hsorted. fold cursor in Hsorted.
    rewrite <- (take_drop STORE_LIMIT cursor) in Hsorted.
    by apply StronglySorted_app_1_l in Hsorted.
  - apply NoDup_Permutation; [| | done].
    + eapply NoDup_fmap_1, openCursorPrev_NoDup_ids, Hos''.
    + by eapply NoDup_fmap_1.
Qed.

Lemma keyedById_empty : keyedById (∅ : gmap jsstring T).
Proof. intros k r Hk. by rewrite lookup_empty in Hk. Qed.

Lemma persist_keyedById hasIndexedDB record (st : Store T) :
  keyedById (objectStore st) ->
  keyedById (objectStore (persist hasIndexedDB record st)).
Proof.
  intros Hst. unfold persist, trimStore.
  destruct hasIndexedDB; cbn [negb inMemory objectStore].
  - by apply keyedById_trimCursor, keyedById_insert.
  - by destruct (_ <? _)%nat.
Qed.

Lemma persist_indexedDB_head record (st : Store T) :
  keyedById (objectStore st) ->
  (forall x, x ∈ storedRecords true st ->
             recordTimestamp x < recordTimestamp record) ->
  head (fetchRecords true (persist true record st)) = Some record.
Proof.
  intros Hkeyed Hnewest.
  rewrite persist_indexedDB_keeps_most_recent by done.
  destruct (openCursorPrev_head
              (<[recordId record := record]> (objectStore st)) record)
    as [rest ->]; [| | done].
  - exists (recordId record). apply lookup_insert_eq.
  - intros k x. rewrite lookup_insert.
    destruct (decide (recordId record = k)) as [_ | _].
    + intros [= <-]. by left.
    + intros Hk. right. apply Hnewest. unfold storedRecords.
      apply list_elem_of_fmap. exists (k, x). split; [done |].
      by apply elem_of_map_to_list.
Qed.

(** *** Capacity *)

(** In both modes a load after a put returns at most [STORE_LIMIT]
    records. *)
Lemma persist_capacity hasIndexedDB record (st : Store T) :
  keyedById (objectStore st) ->
  (length (fetchRecords hasIndexedDB (persist hasIndexedDB record st))
   <= STORE_LIMIT)%nat.
Proof.
  intros Hkeyed. destruct hasIndexedDB.
  - rewrite persist_indexedDB_keeps_most_recent by done.
    rewrite length_take. lia.
  - unfold fetchRecords, persist, trimStore. cbn [negb inMemory].
    destruct (Nat.ltb_spec STORE_LIMIT
                (length (sortDesc (inMemory st ++ [record]))));
      cbn [inMemory]; [| done].
    unfold splice0. rewrite length_drop. lia.
Qed.

(** *** A put without IndexedDB *)

Lemma sortDesc_sorted l : descendingTimestamps l -> sortDesc l = l.
Proof.
  unfold sortDesc.
  induction 1 as [| a l _ IH Ha]; [done |]. cbn [foldr]. rewrite IH.
  destruct l as [| b l]; [done |]. cbn [insertDesc].
  apply Forall_cons in Ha as [Hb _]. unfold notOlder in Hb.
  destruct (Z.gtb_spec (recordTimestamp b - recordTimestamp a) 0); [lia |].
  done.
Qed.

Lemma sortDesc_push_newest l r :
  Forall (fun x => recordTimestamp x < recordTimestamp r) l ->
  sortDesc (l ++ [r]) = r :: sortDesc l.
Proof.
  unfold sortDesc. rewrite foldr_app. cbn [foldr insertDesc].
  induction 1 as [| a l Ha _ IH]; cbn [foldr]; [done |].
  rewrite IH. cbn [insertDesc].
  destruct (Z.gtb_spec (recordTimestamp r - recordTimestamp a) 0); [| lia].
  done.
Qed.

(** Once the fallback array is full, the put of a record that is newer
    than everything stored leaves the array as it was: the new record is
    sorted to the front and spliced off again. *)
Lemma persist_fallback_full_drops_record record (st : Store T) :
  length (inMemory st) = STORE_LIMIT ->
  descendingTimestamps (inMemory st) ->
  Forall (fun x => recordTimestamp x < recordTimestamp record)
    (inMemory st) ->
  fetchRecords false (persist false record st) = inMemory st.
Proof.
  intros Hfull Hsorted Hnewest. unfold fetchRecords, persist, trimStore.
  cbn [negb inMemory].
  rewrite sortDesc_push_newest, sortDesc_sorted by done.
  cbn [Datatypes.length]. rewrite Hfull.
  destruct (Nat.ltb_spec STORE_LIMIT (S STORE_LIMIT)); [| lia].
  cbn [inMemory]. by replace (S STORE_LIMIT - STORE_LIMIT)%nat with 1%nat by lia.
Qed.

(** *** A put without IndexedDB, below the limit *)

Lemma persist_fallback_head record (st : Store T) :
  (length (inMemory st) < STORE_LIMIT)%nat ->
  (forall x, x ∈ storedRecords false st ->
             recordTimestamp x < recordTimestamp record) ->
  head (fetchRecords false (persist false record st)) = Some record.
Proof.
  intros Hroom Hnewest. unfold fetchRecords, persist, trimStore.
  cbn [negb inMemory].
  assert (length (sortDesc (inMemory st ++ [record]))
          = S (length (inMemory st))) as Hlen.
  { rewrite sortDesc_Permutation, length_app. cbn. lia. }
  rewrite Hlen.
  destruct (Nat.ltb_spec STORE_LIMIT (S (length (inMemory st)))); [lia |].
  cbn [inMemory].
  destruct (sortDesc_newest_first (inMemory st) record) as [rest ->];
    [| done].
  apply Forall_forall. exact Hnewest.
Qed.

End PutFacts.

(** [C2] Whatever the object stores held before and whatever records have
    been put since the program started, [loadCredentials] and [loadMessages]
    return the records that the store holds, each once, in non-increasing
    order of timestamp; the result is a function of the store, and on the
    empty store it is the empty sequence. *)
Theorem loadAll_descending (hasIndexedDB : bool)
    (credentialsBefore : gmap jsstring CredentialRecord.t)
    (messagesBefore : gmap jsstring MessageRecord.t)
    (credentials : list CredentialRecord.t)
    (messages : list MessageRecord.t) :
  descendingTimestamps
    (loadCredentials hasIndexedDB
       (storeAfter hasIndexedDB credentialsBefore credentials))
  /\ loadCredentials hasIndexedDB
       (storeAfter hasIndexedDB credentialsBefore credentials)
     ≡ₚ storedRecords hasIndexedDB
          (storeAfter hasIndexedDB credentialsBefore credentials)
  /\ descendingTimestamps
       (loadMessages hasIndexedDB
          (storeAfter hasIndexedDB messagesBefore messages))
  /\ loadMessages hasIndexedDB
       (storeAfter hasIndexedDB messagesBefore messages)
     ≡ₚ storedRecords hasIndexedDB
          (storeAfter hasIndexedDB messagesBefore messages)
  /\ loadCredentials hasIndexedDB emptyStore = []
  /\ loadMessages hasIndexedDB emptyStore = [].
Proof.
  unfold loadCredentials, loadMessages, storeAfter.
  repeat split;
    try apply fetchRecords_stored;
    try apply fetchRecords_empty;
    apply fetchRecords_descending, persistAll_inMemory_descending;
    constructor.
Qed.

(** At equal timestamps a put does not bring the record to the head: with
    IndexedDB the cursor breaks the tie by descending id, without it the
    stable sort leaves the record behind the ones that were there. *)
Lemma put_then_load_tie :
  (Forall (fun x => recordTimestamp x <= recordTimestamp (messageAt "a" 5))
     (storedRecords true (persistMessage true (messageAt "b" 5) emptyStore))
   /\ head (loadMessages true
              (persistMessage true (messageAt "a" 5)
                 (persistMessage true (messageAt "b" 5) emptyStore)))
      <> Some (messageAt "a" 5))
  /\ (Forall (fun x => recordTimestamp x <= recordTimestamp (messageAt "a" 5))
        (storedRecords false
           (persistMessage false (messageAt "b" 5) emptyStore))
      /\ head (loadMessages false
                 (persistMessage false (messageAt "a" 5)
                    (persistMessage false (messageAt "b" 5) emptyStore)))
         <> Some (messageAt "a" 5)).
Proof.
  repeat split.
  - refine (bool_decide_unpack _ _). by vm_compute.
  - vm_compute. discriminate.
  - refine (bool_decide_unpack _ _). by vm_compute.
  - vm_compute. discriminate.
Qed.

(** [C3] A put of a record whose timestamp is strictly greater than every
    timestamp in the store, followed by a load, yields a sequence whose head
    is that record: with IndexedDB always, and in the fallback mode as long
    as the array held fewer than [STORE_LIMIT] records before the put. *)
Theorem put_then_load_head {T : Type} `{Stored T} (hasIndexedDB : bool)
    (st : Store T) (record : T) :
  keyedById (objectStore st) ->
  (forall x, x ∈ storedRecords hasIndexedDB st ->
             recordTimestamp x < recordTimestamp record) ->
  (hasIndexedDB = false -> (length (inMemory st) < STORE_LIMIT)%nat) ->
  head (fetchRecords hasIndexedDB (persist hasIndexedDB record st))
  = Some record.
Proof.
  intros Hkeyed Hnewest Hroom. destruct hasIndexedDB.
  - by apply persist_indexedDB_head.
  - apply persist_fallback_head; auto.
Qed.

Lemma put_then_load_head_witness :
  head (loadMessages true
          (persistMessage true (messageAt "a" 6)
             (persistMessage true (messageAt "b" 5) emptyStore)))
  = Some (messageAt "a" 6).
Proof.
  apply (put_then_load_head true
           (persistMessage true (messageAt "b" 5) emptyStore)
           (messageAt "a" 6)).
  - apply persist_keyedById, keyedById_empty.
  - intros x Hx. vm_compute in Hx.
    apply list_elem_of_singleton in Hx as ->. vm_compute. reflexivity.
  - discriminate.
Defined.

(** [C1] Without IndexedDB the trim removes the newest records instead of
    the oldest: the array is sorted by descending timestamp and the excess
    is spliced off its front.  After 150 puts with the timestamps 1 to 150
    the store holds the records 1 to 100; the 50 most recent ones are gone,
    and the record of the 101st put is already absent right after it. *)
Theorem fallback_trim_drops_newest :
  (CredentialRecord.timestamp
     <$> loadCredentials false
           (persistAll false (credentialAt <$> seq 1 150) emptyStore))
  = (Z.of_nat <$> reverse (seq 1 100))
  /\ (credentialAt 101
      ∉ loadCredentials false
          (persistAll false (credentialAt <$> seq 1 101) emptyStore))
  /\ (credentialAt 1
      ∈ loadCredentials false
          (persistAll false (credentialAt <$> seq 1 150) emptyStore)).
Proof.
  split; [by vm_compute |]. split.
  - intros Hin. apply list_elem_of_In in Hin.
    vm_compute in Hin. repeat destruct Hin as [Hin | Hin]; discriminate || done.
  - apply list_elem_of_In. vm_compute. tauto.
Qed.

(** With IndexedDB the same 150 puts leave the records 51 to 150. *)
Example indexedDB_trim_keeps_newest :
  (CredentialRecord.timestamp
     <$> loadCredentials true
           (persistAll true (credentialAt <$> seq 1 150) emptyStore))
  = (Z.of_nat <$> reverse (seq 51 100)).
Proof. by vm_compute. Qed.


(** * Further properties of the code *)

(** ** Random generator *)

(** [X1] For [min <= max], [randomInt(min, max)] lies between [min] and
    [max] inclusive whatever the random source delivers, and it consumes
    exactly one draw. *)
Theorem randomInt_within (entropy : nat -> Z) (min max : Z) (n : nat) :
  min <= max ->
  min <= fst (randomInt entropy min max n) <= max
  /\ snd (randomInt entropy min max n) = S n.
Proof.
  intros Hle. rewrite randomInt_eq. cbn [fst snd]. split; [| reflexivity].
  pose proof (Z.mod_pos_bound (entropy n) (2 ^ 32) ltac:(lia)) as Hdraw.
  pose proof (Z.rem_bound_pos (entropy n mod 2 ^ 32) (max - min + 1)
                ltac:(lia) ltac:(lia)) as Hrem.
  lia.
Qed.

Lemma randomInt_within_witness :
  10 <= 30
  /\ 10 <= fst (randomInt lateEntropy 10 30 40%nat) <= 30
  /\ snd (randomInt lateEntropy 10 30 40%nat) = 41%nat.
Proof.
  split; [lia |]. apply (randomInt_within lateEntropy 10 30 40%nat). lia.
Defined.

(** [X2] On a non-empty alphabet [randomChar] returns a text of exactly one
    code unit, and that code unit occurs in the alphabet. *)
Theorem randomChar_single_unit (entropy : nat -> Z) (source : jsstring)
    (n : nat) :
  source <> [] ->
  exists c, fst (randomChar entropy source n) = [c] /\ c ∈ source.
Proof.
  intros Hne. rewrite randomChar_eq. cbn [fst]. unfold charAt.
  assert (0 < jsLength source) as Hlen.
  { unfold jsLength. destruct source; [done | cbn [Datatypes.length]; lia]. }
  pose proof (Z.mod_pos_bound (entropy n) (2 ^ 32) ltac:(lia)) as Hdraw.
  pose proof (Z.rem_bound_pos (entropy n mod 2 ^ 32) (jsLength source)
                ltac:(lia) Hlen) as Hindex.
  set (i := Z.to_nat (Z.rem (entropy n mod 2 ^ 32) (jsLength source))).
  assert (i < length source)%nat as Hi by (unfold i, jsLength in *; lia).
  apply lookup_lt_is_Some_2 in Hi as [c Hc]. rewrite Hc.
  exists c. split; [done |]. by eapply list_elem_of_lookup_2.
Qed.

Lemma randomChar_single_unit_witness :
  SYMBOLS <> []
  /\ exists c, fst (randomChar lateEntropy SYMBOLS 20%nat) = [c] /\ c ∈ SYMBOLS.
Proof.
  split; [discriminate |].
  apply (randomChar_single_unit lateEntropy SYMBOLS 20%nat). discriminate.
Defined.

Lemma fillPassword_alphabet entropy fuel len password n :
  Forall (fun c => c ∈ allChars) password ->
  Forall (fun c => c ∈ allChars)
    (fst (fillPassword entropy fuel len password n)).
Proof.
  revert password n.
  induction fuel as [| fuel IH]; intros password n Hpw; cbn [fillPassword];
    [done |].
  destruct (jsLength password <? len); [| done].
  unfold bind at 1.
  destruct (randomChar_elem entropy allChars n) as (c & Hc & Hin); [done |].
  fold allChars.
  destruct (randomChar entropy allChars n) as [cs n2]. cbn [fst] in Hc.
  subst cs. apply IH. apply Forall_app. split; [done |].
  by apply Forall_singleton.
Qed.

(** [X3] A password that [generateSecurePassword] returns consists of code
    units of the four alphabets (lowercase, uppercase, digits, symbols)
    only. *)
Theorem generateSecurePassword_alphabet (entropy : nat -> Z)
    (depth n : nat) (password : jsstring) (n' : nat) :
  generateSecurePassword entropy depth n = (Some password, n') ->
  Forall (fun c => c ∈ LETTERS ++ LETTERS_UPPER ++ NUMBERS ++ SYMBOLS)
    password.
Proof.
  revert n. induction depth as [| depth IH]; intros n Hrun; [done |].
  cbn [generateSecurePassword] in Hrun. unfold bind in Hrun.
  assert (Forall (fun c => c ∈ allChars) (fst (passwordAttempt entropy n)))
    as Hattempt.
  { unfold passwordAttempt, bind.
    destruct (randomInt entropy 12 16 n) as [len n1].
    by apply fillPassword_alphabet. }
  destruct (passwordAttempt entropy n) as [candidate n1].
  cbn [fst] in Hattempt.
  destruct (passwordHasRequirements candidate); cbn [negb] in Hrun.
  - by injection Hrun as -> ->.
  - by eapply IH.
Qed.

Lemma generateSecurePassword_alphabet_witness :
  generateSecurePassword lateEntropy 2 0%nat
  = (Some (js "N1^:kyM0%;jx"), 26%nat)
  /\ Forall (fun c => c ∈ LETTERS ++ LETTERS_UPPER ++ NUMBERS ++ SYMBOLS)
       (js "N1^:kyM0%;jx").
Proof.
  assert (generateSecurePassword lateEntropy 2 0%nat
          = (Some (js "N1^:kyM0%;jx"), 26%nat)) as Hrun
    by (vm_compute; reflexivity).
  split; [exact Hrun |].
  exact (generateSecurePassword_alphabet lateEntropy 2 0%nat _ _ Hrun).
Defined.

(** ** Generated credentials *)

Lemma generateSecurePassword_accepted entropy depth n password n' :
  generateSecurePassword entropy depth n = (Some password, n') ->
  12 <= jsLength password <= 16 /\ passwordHasRequirements password = true.
Proof.
  revert n. induction depth as [| depth IH]; intros n Hrun; [done |].
  cbn [generateSecurePassword] in Hrun. unfold bind in Hrun.
  pose proof (passwordAttempt_length entropy n) as Hlen.
  destruct (passwordAttempt entropy n) as [candidate n1]. cbn [fst] in Hlen.
  destruct (passwordHasRequirements candidate) eqn:Hreq; cbn [negb] in Hrun.
  - by injection Hrun as -> ->.
  - by eapply IH.
Qed.

Lemma evaluateStrength_not_weak s :
  12 <= jsLength s ->
  passwordHasRequirements s = true ->
  evaluateStrength s <> weak.
Proof.
  intros Hlen Hreq. unfold passwordHasRequirements in Hreq.
  repeat (apply andb_prop in Hreq as [Hreq ?]).
  unfold evaluateStrength.
  replace (jsLength s >=? 12) with true by (symmetry; apply Z.geb_le; lia).
  repeat match goal with
         | Hc : testClass ?cls s = true |- context [testClass ?cls s] =>
             rewrite Hc
         end.
  repeat match goal with
         | |- context [if ?b then _ else _] =>
             match b with
             | _ <=? _ => fail 1
             | _ => destruct b
             end
         end; cbn; discriminate.
Qed.

(** [X4] When [handleGenerateCredential] gets a password, the credential it
    makes becomes the current credential and the first entry of the list on
    screen, which never holds more than 150 entries.  The credential carries
    the given id and time, its password has 12 to 16 code units, and its
    strength is the rating of that password, which is never weak. *)
Theorem handleGenerateCredential_record (entropy : nat -> Z) (depth : nat)
    (mode : bool) (uuid : jsstring) (now : Z) (vault vault' : Vault)
    (n n' : nat) :
  handleGenerateCredential entropy depth mode uuid now vault n
  = (Some vault', n') ->
  exists record,
    currentCredential vault' = Some record
    /\ head (credentials vault') = Some record
    /\ (length (credentials vault') <= 150)%nat
    /\ credentialStore vault'
       = persistCredential mode record (credentialStore vault)
    /\ CredentialRecord.id record = uuid
    /\ CredentialRecord.timestamp record = now
    /\ 12 <= jsLength (CredentialRecord.password record) <= 16
    /\ CredentialRecord.strength record
       = evaluateStrength (CredentialRecord.password record)
    /\ CredentialRecord.strength record <> weak.
Proof.
  unfold handleGenerateCredential, bind. intros Hrun.
  destruct (generateRandomEmail entropy n) as [email n1].
  destruct (generateSecurePassword entropy depth n1) as [[password |] n2]
    eqn:Hgen; [| done].
  apply generateSecurePassword_accepted in Hgen as [Hlen Hreq].
  injection Hrun as <- <-. eexists.
  cbn [currentCredential credentials credentialStore CredentialRecord.id
       CredentialRecord.timestamp CredentialRecord.password
       CredentialRecord.strength].
  split; [reflexivity |]. split; [reflexivity |].
  split; [unfold prependCapped; rewrite length_take; lia |].
  split; [reflexivity |]. split; [reflexivity |]. split; [reflexivity |].
  split; [done |]. split; [reflexivity |].
  apply evaluateStrength_not_weak; [lia | done].
Qed.

Lemma handleGenerateCredential_record_witness :
  handleGenerateCredential lateEntropy 2 true (js "u-1") 1700 emptyVault 0%nat
  = (Some generatedVault, 22%nat)
  /\ exists record,
       currentCredential generatedVault = Some record
       /\ head (credentials generatedVault) = Some record
       /\ CredentialRecord.strength record <> weak.
Proof.
  assert (handleGenerateCredential lateEntropy 2 true (js "u-1") 1700
            emptyVault 0%nat
          = (Some generatedVault, 22%nat)) as Hrun
    by (vm_compute; reflexivity).
  split; [exact Hrun |].
  destruct (handleGenerateCredential_record _ _ _ _ _ _ _ _ _ Hrun)
    as (record & ? & ? & _ & _ & _ & _ & _ & _ & ?).
  exists record. auto.
Defined.

(** ** Message synthesizer: the code in the rendered texts *)

Lemma replaceFrom_skip pattern replacement skip s :
  replaceFrom pattern replacement skip s
  = replaceFrom pattern replacement O (drop skip s).
Proof.
  revert skip. induction s as [| c s IH]; intros [| skip]; try done.
  cbn [replaceFrom drop]. apply IH.
Qed.

(** Replacing all occurrences replaces the first one and goes on after
    it. *)
Lemma replaceAll_first pattern replacement s pre post :
  pattern <> [] ->
  splitAtFirst pattern s = Some (pre, post) ->
  s = pre ++ pattern ++ post
  /\ replaceAll pattern replacement s
     = pre ++ replacement ++ replaceAll pattern replacement post.
Proof.
  intros Hne. unfold replaceAll. revert pre.
  induction s as [| c s IH]; intros pre; cbn [splitAtFirst].
  - destruct (bool_decide_reflect (pattern `prefix_of` [])) as [Hpre | _];
      [| done].
    apply prefix_nil_inv in Hpre. done.
  - destruct (bool_decide_reflect (pattern `prefix_of` c :: s))
      as [Hpre | Hnpre].
    + intros [= <- <-]. destruct Hpre as [k Hk].
      assert (drop (length pattern) (c :: s) = k) as Hdrop
        by (rewrite Hk; apply drop_app_length).
      rewrite Hdrop. split; [done |].
      cbn [replaceFrom app].
      rewrite bool_decide_eq_true_2 by by exists k.
      rewrite replaceFrom_skip. do 2 f_equal.
      rewrite <- Hdrop. destruct pattern as [| p0 pattern]; [done |].
      cbn [Datatypes.length drop]. f_equal. lia.
    + destruct (splitAtFirst pattern s) as [[pre' post'] |]; [| done].
      intros [= <- <-]. destruct (IH pre' eq_refl) as [-> Hrep].
      split; [done |]. cbn [replaceFrom app].
      rewrite bool_decide_eq_false_2 by done. by rewrite Hrep.
Qed.

Lemma replaceAll_head pattern replacement post :
  ~ pattern `prefix_of` post ->
  head (replaceAll pattern replacement post) = head post.
Proof.
  intros Hnpre. unfold replaceAll. destruct post as [| c post]; [done |].
  cbn [replaceFrom]. by rewrite bool_decide_eq_false_2.
Qed.

(** A run of 4, 6 or 8 digits between word boundaries is what [extractOtp]
    finds when the text before it has no standalone run of its own. *)
Lemma extractOtp_embedded pre code rest :
  standalone pre code rest ->
  extractOtp pre = None ->
  extractOtp (pre ++ code ++ rest) = Some code.
Proof.
  intros Hst Hpre.
  pose proof (extractOtp_spec pre) as Hnone. rewrite Hpre in Hnone.
  pose proof (extractOtp_spec (pre ++ code ++ rest)) as Hspec.
  destruct (extractOtp (pre ++ code ++ rest)) as [m |];
    [| exfalso; by eapply Hspec].
  destruct Hspec as (pre0 & post0 & Htext & Hst0 & Hleft).
  pose proof (Hleft pre code rest eq_refl Hst) as Hle.
  destruct (decide (length pre0 = length pre)) as [Hlen | Hlen].
  - apply app_inj_1 in Htext as [-> Hrun]; [| done].
    f_equal. destruct Hst as (_ & ? & _ & ?), Hst0 as (_ & ? & _ & ?).
    by eapply bounded_run_unique.
  - exfalso.
    apply app_eq_inv in Htext as [(k & -> & Hk) | (k & -> & Hk)].
    + destruct k as [| c k _] using rev_ind.
      { rewrite app_nil_r in Hlen. done. }
      destruct Hst as (_ & _ & Hlast & _).
      rewrite app_assoc, last_snoc in Hlast. cbn [wordAt] in Hlast.
      destruct Hst0 as (Hlen0 & Hdig0 & Hpre0 & Hpost0).
      apply app_eq_inv in Hk as [(j & Hm & Hj) | (j & Hkj & Hj)].
      * (* the run reaches the last code unit before the code *)
        rewrite Hm in Hdig0. apply Forall_app in Hdig0 as [Hdig0 _].
        apply Forall_app in Hdig0 as [_ Hc].
        rewrite Forall_singleton in Hc. apply isDigit_isWord in Hc.
        congruence.
      * destruct j as [| d j].
        { rewrite app_nil_r in Hkj. rewrite <- Hkj in Hdig0.
          apply Forall_app in Hdig0 as [_ Hc].
          rewrite Forall_singleton in Hc. apply isDigit_isWord in Hc.
          congruence. }
        apply (Hnone pre0 m (d :: j)).
        -- by rewrite Hkj.
        -- split; [done |]. split; [done |]. split; [done |].
           by rewrite Hj in Hpost0.
    + rewrite length_app in Hle. destruct k; [| cbn in Hle; lia].
      rewrite app_nil_r in Hlen. done.
Qed.

(** The choices [createMessageRecord] makes and the record it builds from
    them. *)
Lemma createMessageRecord_parts entropy uuid now n :
  exists template subjectTemplate bodyTemplate generated,
    template ∈ messageTemplates
    /\ subjectTemplate ∈ subjects template
    /\ bodyTemplate ∈ bodies template
    /\ (length generated = 4 \/ length generated = 6 \/ length generated = 8)%nat
    /\ Forall (fun c => isDigit c = true) generated
    /\ synthesized entropy uuid now n
       = {| MessageRecord.id := uuid;
            MessageRecord.sender := sender template;
            MessageRecord.subject :=
              replaceAll CODE generated subjectTemplate;
            MessageRecord.body := replaceAll CODE generated bodyTemplate;
            MessageRecord.otp :=
              Some (default generated
                      (extractOtp (replaceAll CODE generated bodyTemplate)));
            MessageRecord.timestamp := now |}.
Proof.
  unfold synthesized, createMessageRecord, bind.
  destruct (randomInt_index entropy messageTemplates n) as [template Ht];
    [done |].
  destruct (randomInt entropy 0 _ n) as [t n1]. cbn [fst] in Ht.
  rewrite Ht. cbn [from_option id].
  apply list_elem_of_lookup_2 in Ht.
  pose proof (proj1 (Forall_forall _ _) messageTemplates_filled _ Ht)
    as [Hsubj Hbod].
  destruct (randomInt_index entropy OTP_LENGTHS n1) as [otpLength Hl];
    [done |].
  destruct (randomInt entropy 0 _ n1) as [l n2]. cbn [fst] in Hl.
  rewrite Hl. cbn [from_option id].
  apply list_elem_of_lookup_2 in Hl.
  destruct (appendDigits_spec entropy (Z.to_nat otpLength) [] n2)
    as (generated & Hgen & Hlen & Hdig).
  destruct (appendDigits entropy (Z.to_nat otpLength) [] n2) as [otp n3].
  cbn [fst app] in Hgen. subst otp.
  destruct (randomInt_index entropy (subjects template) n3)
    as [subjectTemplate Hs]; [done |].
  destruct (randomInt entropy 0 _ n3) as [s n4]. cbn [fst] in Hs.
  rewrite Hs. cbn [from_option id].
  apply list_elem_of_lookup_2 in Hs.
  destruct (randomInt_index entropy (bodies template) n4) as [bodyTemplate Hb];
    [done |].
  destruct (randomInt entropy 0 _ n4) as [b n5]. cbn [fst] in Hb.
  rewrite Hb. cbn [from_option id ret fst].
  apply list_elem_of_lookup_2 in Hb.
  exists template, subjectTemplate, bodyTemplate, generated.
  do 3 (split; [done |]). split; [| done].
  rewrite Hlen. unfold OTP_LENGTHS in Hl.
  repeat (apply elem_of_cons in Hl as [-> | Hl]; [cbn; lia |]).
  by apply elem_of_nil in Hl.
Qed.

Lemma messageTemplates_code_placement :
  Forall (fun t => Forall (fun s => endsWithCode s = true) (subjects t)
                   /\ Forall (fun b => codeStandsAlone b = true) (bodies t))
    messageTemplates.
Proof. refine (bool_decide_unpack _ _). by vm_compute. Qed.

(** A body template of the catalog, rendered with a code, yields the code
    to [extractOtp]. *)
Lemma rendered_body_yields_code bodyTemplate generated :
  codeStandsAlone bodyTemplate = true ->
  (length generated = 4 \/ length generated = 6 \/ length generated = 8)%nat ->
  Forall (fun c => isDigit c = true) generated ->
  exists pre post,
    replaceAll CODE generated bodyTemplate = pre ++ generated ++ post
    /\ extractOtp (replaceAll CODE generated bodyTemplate) = Some generated.
Proof.
  unfold codeStandsAlone. intros Hok Hlen Hdig.
  destruct (splitAtFirst CODE bodyTemplate) as [[pre post] |] eqn:Hsplit;
    [| done].
  repeat (apply andb_prop in Hok as [Hok ?]).
  destruct (replaceAll_first CODE generated bodyTemplate pre post)
    as [_ Hrep]; [done | done |].
  exists pre, (replaceAll CODE generated post). split; [done |].
  rewrite Hrep. apply extractOtp_embedded.
  - split; [done |]. split; [done |].
    split; [by apply negb_true_iff |].
    rewrite replaceAll_head; [by apply negb_true_iff |].
    match goal with
    | Hn : negb (bool_decide (CODE `prefix_of` post)) = true |- _ =>
        apply negb_true_iff, bool_decide_eq_false in Hn; exact Hn
    end.
  - match goal with
    | Hn : bool_decide (extractOtp pre = None) = true |- _ =>
        by apply bool_decide_eq_true in Hn
    end.
Qed.

(** [X5] In every message [createMessageRecord] makes, the digits that were
    generated stand in the body as its first standalone run of 4, 6 or 8
    digits: [extractOtp] finds them there, the [otp] field holds them (the
    fallback to the generated string is never needed), and the subject ends
    with them. *)
Theorem createMessageRecord_code_extracted (entropy : nat -> Z)
    (uuid : jsstring) (now : Z) (n : nat) :
  exists generated pre post subjectText,
    (length generated = 4 \/ length generated = 6 \/ length generated = 8)%nat
    /\ Forall (fun c => isDigit c = true) generated
    /\ MessageRecord.body (synthesized entropy uuid now n)
       = pre ++ generated ++ post
    /\ extractOtp (MessageRecord.body (synthesized entropy uuid now n))
       = Some generated
    /\ MessageRecord.otp (synthesized entropy uuid now n) = Some generated
    /\ MessageRecord.subject (synthesized entropy uuid now n)
       = subjectText ++ generated.
Proof.
  destruct (createMessageRecord_parts entropy uuid now n)
    as (template & subjectTemplate & bodyTemplate & generated
        & Ht & Hs & Hb & Hlen & Hdig & ->).
  pose proof (proj1 (Forall_forall _ _) messageTemplates_code_placement _ Ht)
    as [Hsubjects Hbodies].
  pose proof (proj1 (Forall_forall _ _) Hsubjects _ Hs) as Hsubject.
  pose proof (proj1 (Forall_forall _ _) Hbodies _ Hb) as Hbody.
  destruct (rendered_body_yields_code bodyTemplate generated Hbody Hlen Hdig)
    as (pre & post & Hrendered & Hextract).
  unfold endsWithCode in Hsubject.
  destruct (splitAtFirst CODE subjectTemplate) as [[subjectText rest] |]
    eqn:Hsplit; [| done].
  destruct rest; [| done].
  destruct (replaceAll_first CODE generated subjectTemplate subjectText [])
    as [_ Hsubj]; [done | done |].
  exists generated, pre, post, subjectText.
  cbn [MessageRecord.body MessageRecord.otp MessageRecord.subject].
  rewrite Hextract. cbn [from_option id].
  split; [done |]. split; [done |]. split; [done |]. split; [done |].
  split; [done |]. rewrite Hsubj. cbn. by rewrite app_nil_r.
Qed.

(** ** Notifications *)

(** [X6] A notification for a synthesized message is created only when
    notifications are supported, switched on in the settings and permitted;
    its title is then the sender, a colon and the code of the message, and
    its body is the subject. *)
Theorem showNotification_carries_code (entropy : nat -> Z) (uuid : jsstring)
    (now : Z) (n : nat) (supported : bool) (config : AppSettings)
    (granted : jsstring) (notification : Notification.t) :
  showNotification supported config granted (synthesized entropy uuid now n)
  = Some notification ->
  supported = true
  /\ notifications config = true
  /\ granted = js "granted"
  /\ (exists code,
        MessageRecord.otp (synthesized entropy uuid now n) = Some code
        /\ Notification.title notification
           = MessageRecord.sender (synthesized entropy uuid now n)
               ++ js ": " ++ code)
  /\ Notification.body notification
     = MessageRecord.subject (synthesized entropy uuid now n).
Proof.
  destruct (createMessageRecord_parts entropy uuid now n)
    as (template & subjectTemplate & bodyTemplate & generated
        & Ht & _ & Hb & Hlen & Hdig & Hrecord).
  pose proof (proj1 (Forall_forall _ _) messageTemplates_code_placement _ Ht)
    as [_ Hbodies].
  pose proof (proj1 (Forall_forall _ _) Hbodies _ Hb) as Hbody.
  destruct (rendered_body_yields_code bodyTemplate generated Hbody Hlen Hdig)
    as (_ & _ & _ & Hextract).
  assert (MessageRecord.otp (synthesized entropy uuid now n) = Some generated)
    as Hotp.
  { rewrite Hrecord. cbn [MessageRecord.otp]. by rewrite Hextract. }
  unfold showNotification. rewrite Hotp.
  destruct supported; cbn [negb]; [| done].
  destruct (notifications config); cbn [negb]; [| done].
  destruct (bool_decide_reflect (granted = js "granted")) as [-> | _];
    cbn [negb]; [| done].
  intros [= <-]. cbn [Notification.title Notification.body].
  do 3 (split; [done |]). split; [| done].
  exists generated. split; [done |].
  assert (truthy generated = true) as ->; [| done].
  unfold truthy. apply negb_true_iff, bool_decide_eq_false.
  intros ->. cbn in Hlen. lia.
Qed.

Lemma showNotification_carries_code_witness :
  showNotification true notifyingSettings (js "granted") sampleMessage
  = Some {| Notification.title := js "Telegram: 10987654";
            Notification.body := js "Telegram sign-in 10987654" |}
  /\ exists code,
       MessageRecord.otp sampleMessage = Some code
       /\ js "Telegram: 10987654"
          = MessageRecord.sender sampleMessage ++ js ": " ++ code.
Proof.
  assert (showNotification true notifyingSettings (js "granted") sampleMessage
          = Some {| Notification.title := js "Telegram: 10987654";
                    Notification.body := js "Telegram sign-in 10987654" |})
    as Hshown by (vm_compute; reflexivity).
  split; [exact Hshown |].
  apply (showNotification_carries_code lateEntropy (js "m-1") 1700 40%nat
           true notifyingSettings (js "granted") _ Hshown).
Defined.

(** ** Settings *)

(** [X7] The settings written to [localStorage] by the three effects are
    the settings [getInitialSettings] reads back, whatever was stored before
    and whatever the notification permission is. *)
Theorem settings_round_trip (config : AppSettings)
    (granted : option jsstring) (storage : gmap jsstring jsstring) :
  getInitialSettings true granted
    (storeNotifications config (storeLanguage config (storeTheme config storage)))
  = config.
Proof.
  unfold getInitialSettings, storeNotifications, storeLanguage, storeTheme.
  cbn [negb].
  rewrite lookup_insert_eq.
  rewrite (lookup_insert_ne _ NOTIFICATIONS_KEY LANGUAGE_KEY) by done.
  rewrite lookup_insert_eq.
  rewrite (lookup_insert_ne _ NOTIFICATIONS_KEY THEME_KEY) by done.
  rewrite (lookup_insert_ne _ LANGUAGE_KEY THEME_KEY) by done.
  rewrite lookup_insert_eq. cbn [from_option id].
  destruct config as [th lang [|]]; reflexivity.
Qed.

(** ** The list on screen *)

Lemma take_app_take {A} (n : nat) (l k : list A) :
  take n (l ++ take n k) = take n (l ++ k).
Proof.
  rewrite !take_app. f_equal. rewrite take_take. f_equal. lia.
Qed.

(** [X8] After any number of calls of [pushMessage] the list on screen is
    the records pushed, the last one first, followed by what was on screen
    before, cut off after 150 entries. *)
Theorem pushMessage_messages (env : Environment)
    (records : list MessageRecord.t) (inbox : Inbox) :
  (length (messages inbox) <= 150)%nat ->
  messages (foldl (fun inbox record => pushMessage env record inbox)
              inbox records)
  = take 150 (reverse records ++ messages inbox).
Proof.
  revert inbox. induction records as [| r records IH]; intros inbox Hlen.
  - cbn [foldl]. rewrite reverse_nil. cbn [app]. by rewrite take_ge.
  - cbn [foldl]. rewrite IH.
    + cbn [pushMessage messages]. unfold prependCapped.
      by rewrite take_app_take, reverse_cons, <- app_assoc.
    + cbn [pushMessage messages]. unfold prependCapped.
      rewrite length_take. lia.
Qed.

Lemma pushMessage_messages_witness :
  (length (messages emptyInbox) <= 150)%nat
  /\ messages
       (foldl (fun inbox record =>
                 pushMessage
                   {| hasIndexedDB := true; isNotificationSupported := true;
                      settings := notifyingSettings;
                      permission := js "granted" |} record inbox)
          emptyInbox [messageWith "a" 1 "1234"; messageWith "b" 2 "567890"])
     = take 150
         (reverse [messageWith "a" 1 "1234"; messageWith "b" 2 "567890"]
            ++ messages emptyInbox).
Proof.
  split; [cbn; lia |].
  apply (pushMessage_messages
           {| hasIndexedDB := true; isNotificationSupported := true;
              settings := notifyingSettings; permission := js "granted" |}
           [messageWith "a" 1 "1234"; messageWith "b" 2 "567890"] emptyInbox).
  cbn. lia.
Defined.

(** ** Bounded record store: further laws *)

Section TrimFacts.

Context {T : Type} `{Stored T}.

(** A cursor that visits no more records than the limit allows deletes
    nothing. *)
Lemma trimCursor_within_limit (cursor : list T) (count : nat)
    (os : gmap jsstring T) :
  (length cursor <= STORE_LIMIT - count)%nat ->
  trimCursor count cursor os = os.
Proof.
  intros Hlen. apply map_eq. intros k. rewrite trimCursor_lookup.
  rewrite drop_ge by done. rewrite fmap_nil.
  by rewrite decide_False by apply not_elem_of_nil.
Qed.

(** After the trim the cursor visits the first [STORE_LIMIT] records it
    visited before, in the same order. *)
Lemma trimCursor_cursor (os : gmap jsstring T) :
  keyedById os ->
  openCursorPrev (trimCursor 0 (openCursorPrev os) os)
  = take STORE_LIMIT (openCursorPrev os).
Proof.
  intros Hos.
  set (cursor := openCursorPrev os).
  set (os' := trimCursor 0 cursor os).
  assert (keyedById os') as Hos' by by apply keyedById_trimCursor.
  pose proof (openCursorPrev_NoDup_ids os Hos) as Hids.
  fold cursor in Hids.
  rewrite <- (take_drop STORE_LIMIT cursor), fmap_app in Hids.
  apply NoDup_app in Hids as (Htake & Hdisjoint & _).
  assert (forall x, x ∈ openCursorPrev os' <-> x ∈ take STORE_LIMIT cursor)
    as Hsame.
  { intros x. rewrite (openCursorPrev_lookup os' x Hos').
    unfold os'. rewrite trimCursor_lookup.
    replace (STORE_LIMIT - 0)%nat with STORE_LIMIT by done.
    destruct (decide _) as [Hdel | Hkeep].
    - split; [done |]. intros Hx. destruct (Hdisjoint (recordId x)); [| done].
      apply list_elem_of_fmap. eauto.
    - rewrite <- (openCursorPrev_lookup os x Hos). fold cursor.
      rewrite <- (take_drop STORE_LIMIT cursor) at 1.
      rewrite elem_of_app. split; [| auto].
      intros [Hx | Hx]; [done |]. destruct Hkeep.
      apply list_elem_of_fmap. eauto. }
  apply (StronglySorted_unique_strong visitedBefore).
  - intros x1 x2 Hx1 Hx2 H12 H21.
    apply Hsame, subseteq_take in Hx1. apply subseteq_take in Hx2.
    apply (openCursorPrev_lookup os _ Hos) in Hx1, Hx2.
    apply visitedBefore_alt in H12 as [Heq | Hlt].
    + assert (recordId x1 = recordId x2) as Hid by by injection Heq.
      rewrite Hid in Hx1. congruence.
    + by destruct H21.
  - apply openCursorPrev_sorted.
  - pose proof (openCursorPrev_sorted os) as Hsorted. fold cursor in Hsorted.
    rewrite <- (take_drop STORE_LIMIT cursor) in Hsorted.
    by apply StronglySorted_app_1_l in Hsorted.
  - apply NoDup_Permutation; [| | done].
    + eapply NoDup_fmap_1, openCursorPrev_NoDup_ids, Hos'.
    + by eapply NoDup_fmap_1.
Qed.

Lemma openCursorPrev_length (os : gmap jsstring T) :
  length (openCursorPrev os) = length (snd <$> map_to_list os).
Proof. by rewrite openCursorPrev_Permutation. Qed.

Lemma trimStore_noop mode (st : Store T) :
  (length (storedRecords mode st) <= STORE_LIMIT)%nat ->
  trimStore mode st = st.
Proof.
  unfold storedRecords, trimStore. destruct mode; cbn [negb]; intros Hlen.
  - rewrite trimCursor_within_limit; [by destruct st |].
    rewrite openCursorPrev_length. lia.
  - destruct (Nat.ltb_spec STORE_LIMIT (length (inMemory st))); [lia | done].
Qed.

(** The records the cursor passes after the first [n] are not newer than
    any of the first [n], and are none of them. *)
Lemma openCursorPrev_split (os : gmap jsstring T) (n : nat) kept dropped :
  keyedById os ->
  kept ∈ take n (openCursorPrev os) ->
  dropped ∈ drop n (openCursorPrev os) ->
  recordTimestamp dropped <= recordTimestamp kept
  /\ dropped ∉ take n (openCursorPrev os).
Proof.
  intros Hos Hkept Hdropped. split.
  - pose proof (openCursorPrev_descending os) as Hsorted.
    unfold descendingTimestamps in Hsorted.
    rewrite <- (take_drop n (openCursorPrev os)) in Hsorted.
    exact (StronglySorted_app_1_elem_of _ _ _ _ _ Hsorted Hkept Hdropped).
  - pose proof (openCursorPrev_NoDup_ids os Hos) as Hids.
    apply NoDup_fmap_1 in Hids.
    rewrite <- (take_drop n (openCursorPrev os)) in Hids.
    apply NoDup_app in Hids as (_ & Hdisjoint & _).
    intros Hin. by apply (Hdisjoint dropped).
Qed.

End TrimFacts.

(** [X9] In both modes a load right after a put returns at most 100
    records, whatever the store held before. *)
Theorem put_then_load_capacity {T : Type} `{Stored T} (mode : bool)
    (record : T) (st : Store T) :
  keyedById (objectStore st) ->
  (length (fetchRecords mode (persist mode record st)) <= STORE_LIMIT)%nat.
Proof.
  intros Hkeyed. destruct mode.
  - rewrite persist_indexedDB_keeps_most_recent by done.
    rewrite length_take. lia.
  - unfold fetchRecords, persist, trimStore. cbn [negb inMemory].
    destruct (Nat.ltb_spec STORE_LIMIT
                (length (sortDesc (inMemory st ++ [record]))));
      cbn [inMemory]; [| done].
    unfold splice0. rewrite length_drop. lia.
Qed.

(** [X10] With IndexedDB a put followed by a load returns the first 100
    records of the descending timestamp cursor over the store with the
    record put in.  Every record the trim removed is not newer than any
    record kept, and is not returned. *)
Theorem indexedDB_put_evicts_oldest {T : Type} `{Stored T} (record : T)
    (st : Store T) (kept dropped : T) :
  keyedById (objectStore st) ->
  kept ∈ fetchRecords true (persist true record st) ->
  dropped
    ∈ drop STORE_LIMIT
        (openCursorPrev (<[recordId record := record]> (objectStore st))) ->
  fetchRecords true (persist true record st)
  = take STORE_LIMIT
      (openCursorPrev (<[recordId record := record]> (objectStore st)))
  /\ recordTimestamp dropped <= recordTimestamp kept
  /\ dropped ∉ fetchRecords true (persist true record st).
Proof.
  intros Hkeyed. rewrite persist_indexedDB_keeps_most_recent by done.
  intros Hkept Hdropped. split; [done |].
  apply openCursorPrev_split; [by apply keyedById_insert | done | done].
Qed.

(** [X11] A trim of a store that holds at most 100 records changes nothing,
    in either mode: the limit itself is allowed. *)
Theorem trimStore_within_limit {T : Type} `{Stored T} (mode : bool)
    (st : Store T) :
  (length (storedRecords mode st) <= STORE_LIMIT)%nat ->
  trimStore mode st = st.
Proof.
  unfold storedRecords, trimStore. destruct mode; cbn [negb]; intros Hlen.
  - rewrite trimCursor_within_limit; [by destruct st |].
    rewrite openCursorPrev_length. lia.
  - destruct (Nat.ltb_spec STORE_LIMIT (length (inMemory st))); [lia | done].
Qed.

(** [X12] Trimming twice is trimming once, in either mode. *)
Theorem trimStore_idempotent {T : Type} `{Stored T} (mode : bool)
    (st : Store T) :
  keyedById (objectStore st) ->
  trimStore mode (trimStore mode st) = trimStore mode st.
Proof.
  intros Hkeyed. apply trimStore_noop.
  unfold storedRecords, trimStore. destruct mode; cbn [negb].
  - cbn [objectStore]. rewrite <- openCursorPrev_length, trimCursor_cursor
      by done.
    rewrite length_take. lia.
  - destruct (Nat.ltb_spec STORE_LIMIT (length (inMemory st))); [| done].
    cbn [inMemory]. unfold splice0. rewrite length_drop. lia.
Qed.

Lemma persistAll_keyedById {T : Type} `{Stored T} mode (records : list T)
    (st : Store T) :
  keyedById (objectStore st) ->
  keyedById (objectStore (persistAll mode records st)).
Proof.
  revert st. induction records as [| r records IH]; intros st Hst; [done |].
  cbn [persistAll foldl]. apply IH. by apply persist_keyedById.
Qed.

Lemma fullCredentialStore_keyed : keyedById (objectStore fullCredentialStore).
Proof. apply persistAll_keyedById, keyedById_empty. Qed.

Lemma put_then_load_capacity_witness :
  (length (loadCredentials true
             (persistCredential true (credentialAt 101) fullCredentialStore))
   <= STORE_LIMIT)%nat.
Proof.
  apply (put_then_load_capacity true (credentialAt 101) fullCredentialStore).
  exact fullCredentialStore_keyed.
Defined.

Lemma indexedDB_put_evicts_oldest_witness :
  recordTimestamp (credentialAt 1) <= recordTimestamp (credentialAt 101)
  /\ credentialAt 1
     ∉ fetchRecords true (persist true (credentialAt 101) fullCredentialStore).
Proof.
  apply (indexedDB_put_evicts_oldest (credentialAt 101) fullCredentialStore
           (credentialAt 101) (credentialAt 1)).
  - exact fullCredentialStore_keyed.
  - apply list_elem_of_In. vm_compute. left. reflexivity.
  - apply list_elem_of_In. vm_compute. left. reflexivity.
Defined.

Lemma trimStore_within_limit_witness :
  (length (storedRecords false
             (persistAll false (credentialAt <$> seq 1 100) emptyStore))
   <= STORE_LIMIT)%nat
  /\ trimStore false
       (persistAll false (credentialAt <$> seq 1 100) emptyStore)
     = persistAll false (credentialAt <$> seq 1 100) emptyStore.
Proof.
  assert (length (storedRecords false
                    (persistAll false (credentialAt <$> seq 1 100)
                       emptyStore))
          <= STORE_LIMIT)%nat as Hlen by (vm_compute; lia).
  split; [exact Hlen |].
  exact (trimStore_within_limit false _ Hlen).
Defined.

Lemma trimStore_idempotent_witness :
  trimStore true (trimStore true fullCredentialStore)
  = trimStore true fullCredentialStore.
Proof.
  apply (trimStore_idempotent true fullCredentialStore).
  exact fullCredentialStore_keyed.
Defined.

Section UpsertFacts.

Context {T : Type} `{Stored T}.

Lemma values_NoDup (os : gmap jsstring T) :
  keyedById os -> NoDup (snd <$> map_to_list os).
Proof.
  intros Hos. apply (NoDup_fmap_1 recordId).
  rewrite <- openCursorPrev_Permutation. by apply openCursorPrev_NoDup_ids.
Qed.

Lemma elem_of_values (os : gmap jsstring T) x :
  x ∈ snd <$> map_to_list os <-> exists k, os !! k = Some x.
Proof. by rewrite <- openCursorPrev_Permutation, elem_of_openCursorPrev. Qed.

(** The records of an object store other than the one under a given id. *)
Lemma values_delete (os : gmap jsstring T) k :
  keyedById os ->
  snd <$> map_to_list (delete k os)
  ≡ₚ filter (fun x => recordId x <> k) (snd <$> map_to_list os).
Proof.
  intros Hos. apply NoDup_Permutation.
  - apply values_NoDup. intros k' x. rewrite lookup_delete.
    destruct (decide (k = k')); [done | apply Hos].
  - by apply NoDup_filter, values_NoDup.
  - intros x. rewrite list_elem_of_filter, !elem_of_values. split.
    + intros [k' Hk']. rewrite lookup_delete in Hk'.
      destruct (decide (k = k')) as [| Hne]; [done |].
      split; [| eauto]. by rewrite (Hos k' x Hk').
    + intros [Hne [k' Hk']]. exists k'. rewrite lookup_delete.
      rewrite (Hos k' x Hk') in Hne.
      by rewrite decide_False by done.
Qed.

Lemma values_insert (os : gmap jsstring T) r :
  keyedById os ->
  snd <$> map_to_list (<[recordId r := r]> os)
  ≡ₚ r :: filter (fun x => recordId x <> recordId r)
            (snd <$> map_to_list os).
Proof.
  intros Hos. rewrite <- insert_delete_eq.
  rewrite map_to_list_insert by apply lookup_delete_eq.
  rewrite fmap_cons. cbn [snd]. by rewrite values_delete.
Qed.

Lemma persist_indexedDB_upsert record (st : Store T) :
  keyedById (objectStore st) ->
  (length (filter (fun x => recordId x <> recordId record)
             (fetchRecords true st)) < STORE_LIMIT)%nat ->
  fetchRecords true (persist true record st)
  ≡ₚ record :: filter (fun x => recordId x <> recordId record)
                 (fetchRecords true st).
Proof.
  intros Hkeyed Hroom.
  rewrite persist_indexedDB_keeps_most_recent by done.
  unfold fetchRecords in *. cbn [negb] in *.
  assert (openCursorPrev (<[recordId record := record]> (objectStore st))
          ≡ₚ record :: filter (fun x => recordId x <> recordId record)
                         (openCursorPrev (objectStore st))) as Hperm.
  { rewrite !openCursorPrev_Permutation. by apply values_insert. }
  rewrite take_ge; [done |].
  rewrite Hperm. cbn [Datatypes.length]. lia.
Qed.

End UpsertFacts.

(** [X13] With IndexedDB a put is an upsert by id: when the records with
    another id number fewer than 100, a load after the put returns the
    record put together with exactly the records of another id that a load
    returned before, and no two records returned share an id. *)
Theorem indexedDB_put_upserts {T : Type} `{Stored T} (record : T)
    (st : Store T) :
  keyedById (objectStore st) ->
  (length (filter (fun x => recordId x <> recordId record)
             (fetchRecords true st)) < STORE_LIMIT)%nat ->
  fetchRecords true (persist true record st)
  ≡ₚ record :: filter (fun x => recordId x <> recordId record)
                 (fetchRecords true st)
  /\ NoDup (recordId <$> fetchRecords true (persist true record st)).
Proof.
  intros Hkeyed Hroom. split; [by apply persist_indexedDB_upsert |].
  apply openCursorPrev_NoDup_ids.
  by apply (persist_keyedById true).
Qed.

Lemma indexedDB_put_upserts_witness :
  fetchRecords true
    (persist true (messageAt "a" 7)
       (persistMessage true (messageAt "b" 6)
          (persistMessage true (messageAt "a" 5) emptyStore)))
  ≡ₚ messageAt "a" 7
       :: filter (fun x => recordId x <> recordId (messageAt "a" 7))
            (fetchRecords true
               (persistMessage true (messageAt "b" 6)
                  (persistMessage true (messageAt "a" 5) emptyStore)))
  /\ NoDup (recordId
             <$> fetchRecords true
                   (persist true (messageAt "a" 7)
                      (persistMessage true (messageAt "b" 6)
                         (persistMessage true (messageAt "a" 5)
                            emptyStore)))).
Proof.
  apply (indexedDB_put_upserts (messageAt "a" 7)
           (persistMessage true (messageAt "b" 6)
              (persistMessage true (messageAt "a" 5) emptyStore))).
  - apply persist_keyedById, persist_keyedById, keyedById_empty.
  - vm_compute. lia.
Defined.

(** ** Loading at start *)

Lemma descending_head_newest {T : Type} `{Stored T} (l : list T) x :
  descendingTimestamps l ->
  x ∈ l ->
  exists first, head l = Some first
                /\ recordTimestamp x <= recordTimestamp first.
Proof.
  intros Hsorted Hx. destruct Hsorted as [| first rest _ Hall].
  { by apply elem_of_nil in Hx. }
  exists first. split; [done |].
  apply elem_of_cons in Hx as [-> | Hx]; [done |].
  exact (proj1 (Forall_forall _ _) Hall x Hx).
Qed.

(** [X14] When the stores are read at the start and the credential store is
    not empty, the credential that becomes current is a stored one with the
    greatest timestamp, and the list on screen is the stored credentials in
    non-increasing order of timestamp. *)
Theorem loadStored_current_is_newest (mode : bool)
    (before : gmap jsstring CredentialRecord.t)
    (puts : list CredentialRecord.t) (vault : Vault) (inbox : Inbox)
    (x : CredentialRecord.t) :
  credentialStore vault = storeAfter mode before puts ->
  x ∈ storedRecords mode (credentialStore vault) ->
  exists first,
    currentCredential (fst (loadStored mode vault inbox)) = Some first
    /\ first ∈ storedRecords mode (credentialStore vault)
    /\ CredentialRecord.timestamp x <= CredentialRecord.timestamp first
    /\ descendingTimestamps (credentials (fst (loadStored mode vault inbox)))
    /\ credentials (fst (loadStored mode vault inbox))
       ≡ₚ storedRecords mode (credentialStore vault).
Proof.
  intros Hstore Hx. unfold loadStored, loadCredentials.
  cbn [fst currentCredential credentials].
  assert (descendingTimestamps (fetchRecords mode (credentialStore vault)))
    as Hsorted.
  { rewrite Hstore. unfold storeAfter.
    apply fetchRecords_descending, persistAll_inMemory_descending.
    constructor. }
  pose proof (fetchRecords_stored mode (credentialStore vault)) as Hperm.
  rewrite <- Hperm in Hx.
  destruct (descending_head_newest _ x Hsorted Hx) as (first & Hhead & Hle).
  exists first. rewrite Hhead.
  split; [done |]. split.
  - rewrite <- Hperm. by apply head_Some_elem_of.
  - done.
Qed.

Lemma loadStored_current_is_newest_witness :
  credentialAt 2 ∈ storedRecords true (credentialStore storedVault)
  /\ exists first,
       currentCredential (fst (loadStored true storedVault emptyInbox))
       = Some first
       /\ CredentialRecord.timestamp (credentialAt 2)
          <= CredentialRecord.timestamp first.
Proof.
  assert (credentialAt 2 ∈ storedRecords true (credentialStore storedVault))
    as Hin by (apply list_elem_of_In; vm_compute; tauto).
  split; [exact Hin |].
  destruct (loadStored_current_is_newest true ∅
              [credentialAt 2; credentialAt 3; credentialAt 1]
              storedVault emptyInbox (credentialAt 2) eq_refl Hin)
    as (first & Hcurrent & _ & Hle & _).
  exists first. auto.
Defined.

(** ** The two modes side by side *)

Section ModeFacts.

Context {T : Type} `{Stored T}.

Lemma filter_all (P : T -> Prop) `{!forall x, Decision (P x)} (l : list T) :
  Forall P l -> filter P l = l.
Proof.
  induction 1 as [| x l Hx _ IH]; [done |].
  by rewrite filter_cons, decide_True, IH.
Qed.

(** Below the limit the fallback array holds what was put. *)
Lemma persistAll_fallback_Permutation (records : list T) (st : Store T) :
  (length (inMemory st) + length records <= STORE_LIMIT)%nat ->
  fetchRecords false (persistAll false records st)
  ≡ₚ inMemory st ++ records.
Proof.
  revert st. induction records as [| r records IH]; intros st Hroom.
  - cbn [persistAll foldl fetchRecords negb]. by rewrite app_nil_r.
  - cbn [persistAll foldl]. cbn [Datatypes.length] in Hroom.
    assert (inMemory (persist false r st) = sortDesc (inMemory st ++ [r]))
      as Hput.
    { unfold persist, trimStore. cbn [negb inMemory].
      destruct (Nat.ltb_spec STORE_LIMIT
                  (length (sortDesc (inMemory st ++ [r])))) as [Hover |];
        [| done].
      rewrite sortDesc_Permutation, length_app in Hover.
      cbn [Datatypes.length] in Hover. lia. }
    fold (persistAll false records (persist false r st)).
    rewrite IH.
    + rewrite Hput, sortDesc_Permutation, <- app_assoc. done.
    + rewrite Hput, sortDesc_Permutation, length_app.
      cbn [Datatypes.length]. lia.
Qed.

(** Below the limit, and with ids that are all different, the object store
    holds what was put. *)
Lemma persistAll_indexedDB_Permutation (records : list T) (st : Store T) :
  keyedById (objectStore st) ->
  NoDup (recordId <$> (fetchRecords true st ++ records)) ->
  (length (fetchRecords true st) + length records <= STORE_LIMIT)%nat ->
  fetchRecords true (persistAll true records st)
  ≡ₚ fetchRecords true st ++ records.
Proof.
  revert st. induction records as [| r records IH]; intros st Hkeyed Hids Hroom.
  - cbn [persistAll foldl]. by rewrite app_nil_r.
  - cbn [persistAll foldl]. cbn [Datatypes.length] in Hroom.
    fold (persistAll true records (persist true r st)).
    assert (filter (fun x => recordId x <> recordId r) (fetchRecords true st)
            = fetchRecords true st) as Hfilter.
    { apply filter_all. apply Forall_forall. intros x Hx Heq.
      rewrite fmap_app, fmap_cons in Hids.
      apply NoDup_app in Hids as (_ & Hdisjoint & _).
      apply (Hdisjoint (recordId x)); [by apply list_elem_of_fmap_2 |].
      rewrite Heq. left. }
    assert (fetchRecords true (persist true r st)
            ≡ₚ fetchRecords true st ++ [r]) as Hput.
    { rewrite persist_indexedDB_upsert by (rewrite ?Hfilter; done || lia).
      rewrite Hfilter. by rewrite Permutation_cons_append. }
    rewrite IH.
    + by rewrite Hput, <- app_assoc.
    + by apply persist_keyedById.
    + rewrite Hput, <- app_assoc. done.
    + rewrite Hput, length_app. cbn [Datatypes.length]. lia.
Qed.

Lemma NoDup_fmap_same {B} (f : T -> B) (l : list T) x y :
  NoDup (f <$> l) -> x ∈ l -> y ∈ l -> f x = f y -> x = y.
Proof.
  induction l as [| a l IH]; intros Hnd Hx Hy Hf.
  { by apply elem_of_nil in Hx. }
  rewrite fmap_cons in Hnd. apply NoDup_cons in Hnd as [Ha Hnd].
  apply elem_of_cons in Hx as [-> | Hx], Hy as [-> | Hy]; auto.
  - destruct Ha. rewrite Hf. by apply list_elem_of_fmap_2.
  - destruct Ha. rewrite <- Hf. by apply list_elem_of_fmap_2.
Qed.

End ModeFacts.

(** [X15] As long as no more than 100 records have been put, all with
    different ids and different timestamps, a load returns the same sequence
    with and without IndexedDB. *)
Theorem modes_agree_below_limit {T : Type} `{Stored T} (records : list T) :
  NoDup (recordId <$> records) ->
  NoDup (recordTimestamp <$> records) ->
  (length records <= STORE_LIMIT)%nat ->
  fetchRecords false (persistAll false records emptyStore)
  = fetchRecords true (persistAll true records emptyStore).
Proof.
  intros Hids Hts Hroom.
  assert (fetchRecords false (persistAll false records emptyStore)
          ≡ₚ records) as Hfallback.
  { rewrite persistAll_fallback_Permutation; [done |]. cbn. lia. }
  assert (fetchRecords true (@emptyStore T) = []) as Hempty
    by apply fetchRecords_empty.
  assert (fetchRecords true (persistAll true records emptyStore)
          ≡ₚ records) as Hindexed.
  { rewrite persistAll_indexedDB_Permutation; rewrite ?Hempty; try done;
      try apply keyedById_empty. }
  apply (StronglySorted_unique_strong notOlder).
  - intros x1 x2 Hx1 Hx2 H12 H21. unfold notOlder in *.
    rewrite Hfallback in Hx1. rewrite Hindexed in Hx2.
    apply (NoDup_fmap_same recordTimestamp records); [done .. |]. lia.
  - apply fetchRecords_descending, persistAll_inMemory_descending.
    constructor.
  - apply fetchRecords_descending, persistAll_inMemory_descending.
    constructor.
  - by rewrite Hfallback, Hindexed.
Qed.

Lemma modes_agree_below_limit_witness :
  fetchRecords false
    (persistAll false [credentialAt 2; credentialAt 3; credentialAt 1]
       emptyStore)
  = fetchRecords true
      (persistAll true [credentialAt 2; credentialAt 3; credentialAt 1]
         emptyStore).
Proof.
  apply (modes_agree_below_limit
           [credentialAt 2; credentialAt 3; credentialAt 1]).
  - refine (bool_decide_unpack _ _). by vm_compute.
  - refine (bool_decide_unpack _ _). by vm_compute.
  - unfold STORE_LIMIT. cbn [Datatypes.length]. lia.
Defined.

(** ** The list on screen and the store *)

Section ScreenFacts.

Context {T : Type} `{Stored T}.

(** The cursor visits a record that is newer than all others first and then
    the others as before. *)
Lemma openCursorPrev_insert_newest (os : gmap jsstring T) r :
  keyedById os ->
  os !! recordId r = None ->
  (forall x, x ∈ openCursorPrev os ->
             recordTimestamp x < recordTimestamp r) ->
  openCursorPrev (<[recordId r := r]> os) = r :: openCursorPrev os.
Proof.
  intros Hos Hfresh Hnewest.
  assert (keyedById (<[recordId r := r]> os)) as Hos'
    by by apply keyedById_insert.
  assert (forall x, x ∈ r :: openCursorPrev os ->
                    <[recordId r := r]> os !! recordId x = Some x) as Hin.
  { intros x [-> | Hx]%elem_of_cons; [apply lookup_insert_eq |].
    apply (openCursorPrev_lookup os x Hos) in Hx.
    rewrite lookup_insert_ne; [done |]. intros Heq.
    rewrite <- Heq in Hx. congruence. }
  apply (StronglySorted_unique_strong visitedBefore).
  - intros x1 x2 Hx1 Hx2 H12 H21.
    apply (openCursorPrev_lookup _ x1 Hos') in Hx1. apply Hin in Hx2.
    apply visitedBefore_alt in H12 as [Heq | Hlt]; [| by destruct H21].
    assert (recordId x1 = recordId x2) as Hid by by injection Heq.
    rewrite Hid in Hx1. congruence.
  - apply openCursorPrev_sorted.
  - constructor; [apply openCursorPrev_sorted |].
    apply Forall_forall. intros x Hx. apply Hnewest in Hx.
    destruct (total visitedBefore r x) as [Hrx | Hxr]; [done |].
    by apply older_not_visitedBefore in Hxr.
  - rewrite !openCursorPrev_Permutation.
    by rewrite map_to_list_insert.
Qed.

End ScreenFacts.

(** [X16] With IndexedDB, [pushMessage] keeps the list on screen and the
    store in step: if the first 100 entries on screen are what a load
    returns, and the message pushed has a new id and is newer than every
    stored message, then the same holds after the push. *)
Theorem pushMessage_screen_matches_store (env : Environment)
    (record : MessageRecord.t) (inbox : Inbox) :
  hasIndexedDB env = true ->
  keyedById (objectStore (messageStore inbox)) ->
  take STORE_LIMIT (messages inbox)
  = loadMessages true (messageStore inbox) ->
  objectStore (messageStore inbox) !! MessageRecord.id record = None ->
  (forall x, x ∈ loadMessages true (messageStore inbox) ->
             MessageRecord.timestamp x < MessageRecord.timestamp record) ->
  take STORE_LIMIT (messages (pushMessage env record inbox))
  = loadMessages true (messageStore (pushMessage env record inbox)).
Proof.
  intros Hmode Hkeyed Hscreen Hfresh Hnewest.
  unfold pushMessage. cbn [messages messageStore]. rewrite Hmode.
  unfold loadMessages, persistMessage in *.
  rewrite persist_indexedDB_keeps_most_recent by done.
  unfold fetchRecords in Hscreen, Hnewest. cbn [negb] in Hscreen, Hnewest.
  rewrite (openCursorPrev_insert_newest (objectStore (messageStore inbox))
             record Hkeyed Hfresh Hnewest).
  unfold prependCapped. rewrite take_take.
  replace (STORE_LIMIT `min` 150)%nat with STORE_LIMIT by done.
  unfold STORE_LIMIT in *. cbn [take]. f_equal.
  rewrite <- Hscreen, take_take. done.
Qed.

Lemma pushMessage_screen_matches_store_witness :
  take STORE_LIMIT
    (messages
       (pushMessage indexedDBEnvironment (messageWith "b" 2 "567890")
          inboxAfterOne))
  = loadMessages true
      (messageStore
         (pushMessage indexedDBEnvironment (messageWith "b" 2 "567890")
            inboxAfterOne)).
Proof.
  apply (pushMessage_screen_matches_store indexedDBEnvironment
           (messageWith "b" 2 "567890") inboxAfterOne).
  - reflexivity.
  - apply persist_keyedById, keyedById_empty.
  - vm_compute. reflexivity.
  - vm_compute. reflexivity.
  - intros x Hx. vm_compute in Hx.
    apply list_elem_of_singleton in Hx as ->. vm_compute. reflexivity.
Defined.

(** ** The message timer *)

Lemma clearGeneratorTimeout_pending timers :
  timersInOrder timers ->
  pendingTimers (clearGeneratorTimeout timers) = ∅.
Proof.
  intros Horder. apply map_eq. intros k. rewrite lookup_empty.
  unfold clearGeneratorTimeout.
  destruct (pendingTimers timers !! k) as [d |] eqn:Hk.
  - destruct (Horder k d Hk) as (Href & Hnz & _). rewrite Href.
    destruct (Nat.eqb_spec k 0); [done |].
    cbn [pendingTimers]. apply lookup_delete_eq.
  - destruct (generatorTimeout timers) as [h |]; [| done].
    destruct (Nat.eqb h 0); [done |].
    cbn [pendingTimers]. rewrite lookup_delete.
    by destruct (decide (h = k)).
Qed.

Lemma scheduleNextMessage_spec entropy handle timers n :
  timersInOrder timers ->
  exists seconds,
    10 <= seconds <= 30
    /\ fst (scheduleNextMessage entropy handle timers n)
       = {| pendingTimers := {[handle := seconds * 1000]};
            generatorTimeout := Some handle |}.
Proof.
  intros Horder. unfold scheduleNextMessage, bind.
  pose proof (randomInt_range entropy 10 30 n ltac:(lia)) as Hrange.
  destruct (randomInt entropy 10 30 n) as [seconds n1]. cbn [fst] in Hrange.
  exists seconds. split; [done |]. cbn [ret fst].
  by rewrite clearGeneratorTimeout_pending, insert_empty.
Qed.

Lemma timersInOrder_single handle seconds :
  handle <> O ->
  10 <= seconds <= 30 ->
  timersInOrder {| pendingTimers := {[handle := seconds * 1000]};
                   generatorTimeout := Some handle |}.
Proof.
  intros Hnz Hrange k d. cbn [pendingTimers generatorTimeout].
  intros [<- <-]%lookup_singleton_Some. eauto.
Qed.

Lemma freshHandle_nonzero handle timers :
  freshHandle handle timers = true -> handle <> O.
Proof.
  unfold freshHandle. intros [Hnz _]%andb_prop.
  apply negb_true_iff in Hnz. by apply Nat.eqb_neq.
Qed.

Lemma synthesizeAndSchedule_order entropy env uuid now handle state n :
  timersInOrder (snd state) ->
  handle <> O ->
  timersInOrder
    (snd (fst (synthesizeAndSchedule entropy env uuid now handle state n))).
Proof.
  intros Horder Hnz. unfold synthesizeAndSchedule, bind.
  destruct (createMessageRecord entropy uuid now n) as [record n1].
  destruct (scheduleNextMessage_spec entropy handle (snd state) n1 Horder)
    as (seconds & Hrange & Heq).
  destruct (scheduleNextMessage entropy handle (snd state) n1) as [timers n2].
  cbn [fst] in Heq. subst timers. cbn [ret fst snd].
  by apply timersInOrder_single.
Qed.

Lemma timerStep_order entropy env event state n state' n' :
  timersInOrder (snd state) ->
  timerStep entropy env event state n = (Some state', n') ->
  timersInOrder (snd state').
Proof.
  intros Horder. destruct event as [h | f uuid now h | uuid now h |];
    cbn [timerStep].
  - destruct (freshHandle h _) eqn:Hfresh; [| done].
    apply freshHandle_nonzero in Hfresh. unfold bind.
    destruct (scheduleNextMessage_spec entropy h (snd state) n Horder)
      as (seconds & Hrange & Heq).
    destruct (scheduleNextMessage entropy h (snd state) n) as [timers n1].
    cbn [fst] in Heq. subst timers. intros [= <- _]. cbn [snd].
    by apply timersInOrder_single.
  - destruct (pendingTimers (snd state) !! f) as [d |]; [| done].
    destruct (freshHandle h _) eqn:Hfresh; [| done].
    apply freshHandle_nonzero in Hfresh. unfold bind.
    match goal with
    | |- context [synthesizeAndSchedule entropy env uuid now h ?s n] =>
        pose proof (synthesizeAndSchedule_order entropy env uuid now h s n)
          as Hnext;
        destruct (synthesizeAndSchedule entropy env uuid now h s n)
          as [next n1]
    end.
    intros [= <- _]. apply Hnext; [| done].
    intros k dk. cbn [snd pendingTimers generatorTimeout].
    rewrite lookup_delete. destruct (decide (f = k)); [done |].
    apply Horder.
  - destruct (freshHandle h _) eqn:Hfresh; [| done].
    apply freshHandle_nonzero in Hfresh. unfold bind.
    pose proof (synthesizeAndSchedule_order entropy env uuid now h state n
                  Horder Hfresh) as Hnext.
    destruct (synthesizeAndSchedule entropy env uuid now h state n)
      as [next n1].
    by intros [= <- _].
  - intros [= <- _]. cbn [snd]. intros k d.
    by rewrite clearGeneratorTimeout_pending.
Qed.

Lemma timerRun_order entropy env events state n state' n' :
  timersInOrder (snd state) ->
  timerRun entropy env events state n = (Some state', n') ->
  timersInOrder (snd state').
Proof.
  revert state n.
  induction events as [| event events IH]; intros state n Horder;
    cbn [timerRun].
  - by intros [= <- _].
  - unfold bind.
    destruct (timerStep entropy env event state n) as [[next |] n1] eqn:Hstep;
      [| done].
    apply IH. by eapply timerStep_order.
Qed.

(** [X17] Whatever sequence of arming, firing, manual refresh and cleanup
    happens from the start, every pending message timeout is the one the ref
    holds, so there are never two of them, and each was set to 10 to 30
    whole seconds. *)
Theorem timer_never_doubled (entropy : nat -> Z) (env : Environment)
    (events : list TimerEvent) (inbox : Inbox) (n : nat)
    (state : Inbox * Timers) (n' : nat) :
  timerRun entropy env events (inbox, noTimers) n = (Some state, n') ->
  timersInOrder (snd state)
  /\ forall handle1 handle2 delay1 delay2,
       pendingTimers (snd state) !! handle1 = Some delay1 ->
       pendingTimers (snd state) !! handle2 = Some delay2 ->
       handle1 = handle2 /\ 10000 <= delay1 <= 30000.
Proof.
  intros Hrun.
  assert (timersInOrder (snd state)) as Horder.
  { eapply timerRun_order; [| exact Hrun]. intros k d. cbn. 
    by rewrite lookup_empty. }
  split; [done |]. intros h1 h2 d1 d2 H1 H2.
  destruct (Horder h1 d1 H1) as (Href1 & _ & seconds & -> & Hrange).
  destruct (Horder h2 d2 H2) as (Href2 & _).
  split; [congruence | lia].
Qed.

Lemma timer_never_doubled_witness :
  timerRun lateEntropy indexedDBEnvironment sampleEvents
    (emptyInbox, noTimers) 0%nat
  = (Some sampleRun, 20%nat)
  /\ timersInOrder (snd sampleRun).
Proof.
  assert (timerRun lateEntropy indexedDBEnvironment sampleEvents
            (emptyInbox, noTimers) 0%nat
          = (Some sampleRun, 20%nat)) as Hrun by (vm_compute; reflexivity).
  split; [exact Hrun |].
  apply (timer_never_doubled lateEntropy indexedDBEnvironment sampleEvents
           emptyInbox 0%nat sampleRun 20%nat Hrun).
Defined.

(** [X18] Arming the timer replaces it: after [scheduleNextMessage], from a
    state in which the pending timeout is the one the ref holds, exactly one
    timeout is pending, the one just set, and it is due in 10000 to 30000
    milliseconds. *)
Theorem scheduleNextMessage_replaces (entropy : nat -> Z) (handle : nat)
    (timers : Timers) (n : nat) :
  timersInOrder timers ->
  exists delay,
    10000 <= delay <= 30000
    /\ pendingTimers (fst (scheduleNextMessage entropy handle timers n))
       = {[handle := delay]}
    /\ generatorTimeout (fst (scheduleNextMessage entropy handle timers n))
       = Some handle.
Proof.
  intros Horder.
  destruct (scheduleNextMessage_spec entropy handle timers n Horder)
    as (seconds & Hrange & ->).
  exists (seconds * 1000). split; [lia |]. done.
Qed.

Lemma scheduleNextMessage_replaces_witness :
  exists delay,
    10000 <= delay <= 30000
    /\ pendingTimers (fst (scheduleNextMessage lateEntropy 4 armedTimers 20%nat))
       = {[4%nat := delay]}.
Proof.
  destruct (scheduleNextMessage_replaces lateEntropy 4 armedTimers 20%nat)
    as (delay & Hrange & Hpending & _).
  - apply (timersInOrder_single 3 19); [discriminate | lia].
  - exists delay. auto.
Defined.

(** ** OTP extractor and strength evaluator: further laws *)

(** [X19] What [extractOtp] returns is a code of its own: applied to its
    result, [extractOtp] returns that result again. *)
Theorem extractOtp_of_result (text m : jsstring) :
  extractOtp text = Some m ->
  extractOtp m = Some m.
Proof.
  intros Hm. apply extractOtp_digits in Hm as [Hlen Hdig].
  pose proof (extractOtp_embedded [] m []) as Hembedded.
  rewrite app_nil_r in Hembedded. apply Hembedded; [| reflexivity].
  split; [done |]. split; [done |]. done.
Qed.

Lemma extractOtp_of_result_witness :
  extractOtp (js "Your code is 482913 today") = Some (js "482913")
  /\ extractOtp (js "482913") = Some (js "482913").
Proof.
  assert (extractOtp (js "Your code is 482913 today") = Some (js "482913"))
    as Hm by reflexivity.
  split; [exact Hm |].
  exact (extractOtp_of_result _ _ Hm).
Defined.

(** [X20] A text that [evaluateStrength] rates strong has at least 12 code
    units and holds at least three of the four character classes of the
    score. *)
Theorem evaluateStrength_strong_needs (password : jsstring) :
  evaluateStrength password = strong ->
  12 <= jsLength password /\ 3 <= classesPresent password.
Proof.
  rewrite evaluateStrength_score.
  unfold signalScore, strengthSignals, classesPresent. cbn [foldr].
  rewrite <- !testClass_decide.
  destruct (bool_decide_reflect (12 <= jsLength password)) as [H12 | H12];
    destruct (bool_decide_reflect (14 <= jsLength password)) as [H14 | H14];
    try lia;
    destruct (testClass isUpper password),
      (testClass isLower password),
      (testClass isDigit password),
      (testClass (fun c => negb (isWord c)) password),
      (bool_decide (jsLength password - 2 <= distinctCharacterCount password));
    cbn; intros Hstrong; try discriminate; lia.
Qed.

Lemma evaluateStrength_strong_needs_witness :
  evaluateStrength (js "N1^:kyM0%;jx") = strong
  /\ 12 <= jsLength (js "N1^:kyM0%;jx")
  /\ 3 <= classesPresent (js "N1^:kyM0%;jx").
Proof.
  assert (evaluateStrength (js "N1^:kyM0%;jx") = strong) as Hstrong
    by (vm_compute; reflexivity).
  split; [exact Hstrong |].
  exact (evaluateStrength_strong_needs _ Hstrong).
Defined.

(** ** A put without IndexedDB *)

(** [X21] Without IndexedDB a put never replaces a record: below the limit
    a load after the put returns the record put and every record that was
    there, also one with the same id. *)
Theorem fallback_put_appends {T : Type} `{Stored T} (record : T)
    (st : Store T) :
  (length (inMemory st) < STORE_LIMIT)%nat ->
  fetchRecords false (persist false record st) ≡ₚ inMemory st ++ [record].
Proof.
  intros Hroom.
  apply (persistAll_fallback_Permutation [record] st).
  cbn [Datatypes.length]. lia.
Qed.

Lemma fallback_put_appends_witness :
  fetchRecords false
    (persist false (messageAt "a" 7)
       (persistMessage false (messageAt "a" 5) emptyStore))
  ≡ₚ inMemory (persistMessage false (messageAt "a" 5) emptyStore)
       ++ [messageAt "a" 7].
Proof.
  apply (fallback_put_appends (messageAt "a" 7)
           (persistMessage false (messageAt "a" 5) emptyStore)).
  vm_compute. lia.
Defined.
